(** * Dialogue-state refinement engine of Genie (dialogue_utils.js)

    A shallow embedding of the predicate algebra, the query refinement and
    the grounding checks of the dialogue policy helpers, and the properties
    of them that the specification states.

    Modelling conventions.
    - A JavaScript function that can return a value, return [null] or throw
      is a function into [res (option A)]: [Ret (Some a)], [Ret None],
      [Throw e].
    - ThingTalk values are an abstract type with the three operations the
      code calls on them (class [ValueOps]).  The boolean-expression
      primitives of the ThingTalk library that the code calls
      ([optimize], [equals]) are the class [FilterOps].
    - A result row ([topResult.value], a JS object read by field name) is a
      [gmap string value].  A slot object ([slots = {}] filled with
      [slots[name] = clause] and walked with [for (key in slots)]) is an
      association list in insertion order.  The list holds the own
      properties of the object; for a field named as a member of
      [Object.prototype] the object answers otherwise, and the properties
      that read a slot object by field name assume that no recorded field
      is so named ([plainSlotKeys]).
    - [clone()] is the identity: the embedding is pure.  In-place writes
      into a cloned tree are modelled by rebuilding the tree around the
      written node ([plug]). *)

From stdpp Require Import base strings gmap list.
From Stdlib Require Import Bool.

Open Scope string_scope.
Set Warnings "-register-all,-clear-no-such-hyp".

(** ** Outcomes *)

Inductive error : Type :=
| NotImplemented   (* throw new Error('NOT IMPLEMENTED') *)
| TypeError        (* property access on null / undefined *)
| AssertionError.  (* a failed assert(...) *)

Inductive res (A : Type) : Type :=
| Ret (a : A)
| Throw (e : error).
Arguments Ret {A} a.
Arguments Throw {A} e.

#[global] Instance res_ret : MRet res := λ A a, Ret a.

#[global] Instance res_bind : MBind res := λ A B k m,
  match m with
  | Ret a => k a
  | Throw e => Throw e
  end.

#[global] Instance res_fmap : FMap res := λ A B f m,
  match m with
  | Ret a => Ret (f a)
  | Throw e => Throw e
  end.

Definition assert (b : bool) : res unit :=
  if b then Ret tt else Throw AssertionError.

(** ** ThingTalk values *)

Class ValueOps (value : Type) := {
  (** [a.equals(b)] *)
  value_equals : value → value → bool;
  (** [a.toJS() === b.toJS()] *)
  toJS_strict_eq : value → value → bool;
  (** [Some elems] when [v.isArray], with [elems] the array [v.value] *)
  array_elems : value → option (list value);
}.

(** ** Boolean expressions (filters) *)

Section Filters.
Context {value : Type} `{ValueOps value}.

(** [Ast.BooleanExpression].  A [BCompute] carries values only; a
    [BExternal] carries the filter of its sub-query. *)
Inductive BooleanExpression : Type :=
| BTrue
| BFalse
| BDontCare (name : string)
| BAtom (name : string) (operator : string) (v : value)
| BNot (expr : BooleanExpression)
| BAnd (operands : list BooleanExpression)
| BOr (operands : list BooleanExpression)
| BExternal (channel : string) (in_params : list (string * value))
            (filter : BooleanExpression)
| BCompute (lhs : value) (operator : string) (rhs : value).

Section BooleanExpression_induction.
Variable P : BooleanExpression → Prop.
Hypothesis HTrue : P BTrue.
Hypothesis HFalse : P BFalse.
Hypothesis HDontCare : ∀ name, P (BDontCare name).
Hypothesis HAtom : ∀ name op v, P (BAtom name op v).
Hypothesis HNot : ∀ e, P e → P (BNot e).
Hypothesis HAnd : ∀ ops, Forall P ops → P (BAnd ops).
Hypothesis HOr : ∀ ops, Forall P ops → P (BOr ops).
Hypothesis HExternal : ∀ ch ps f, P f → P (BExternal ch ps f).
Hypothesis HCompute : ∀ l op r, P (BCompute l op r).

Fixpoint BooleanExpression_nested_ind (f : BooleanExpression) : P f :=
  match f with
  | BTrue => HTrue
  | BFalse => HFalse
  | BDontCare n => HDontCare n
  | BAtom n op v => HAtom n op v
  | BNot e => HNot e (BooleanExpression_nested_ind e)
  | BAnd ops =>
      HAnd ops ((fix go l : Forall P l :=
                   match l with
                   | [] => @List.Forall_nil _ P
                   | x :: l' =>
                       @List.Forall_cons _ P x l' (BooleanExpression_nested_ind x) (go l')
                   end) ops)
  | BOr ops =>
      HOr ops ((fix go l : Forall P l :=
                  match l with
                  | [] => @List.Forall_nil _ P
                  | x :: l' =>
                      @List.Forall_cons _ P x l' (BooleanExpression_nested_ind x) (go l')
                  end) ops)
  | BExternal ch ps f => HExternal ch ps f (BooleanExpression_nested_ind f)
  | BCompute l op r => HCompute l op r
  end.
End BooleanExpression_induction.

(** [isFilterCompatibleWithResult(topResult, filter)], on the row
    [topResult.value]. *)
Fixpoint isFilterCompatibleWithResult (topResult : gmap string value)
    (filter : BooleanExpression) : bool :=
  match filter with
  | BTrue | BDontCare _ => true
  | BFalse => false
  | BAnd operands => forallb (isFilterCompatibleWithResult topResult) operands
  | BOr operands => existsb (isFilterCompatibleWithResult topResult) operands
  | BNot expr => negb (isFilterCompatibleWithResult topResult expr)
  | BExternal _ _ _ => true
  | BCompute _ _ _ => true
  | BAtom name operator v =>
      match topResult !! name with
      | None => false
      | Some resultValue =>
          if (operator =? "==") || (operator =? "=~")
          then toJS_strict_eq resultValue v
          else true
      end
  end.

(** [getParamsInFilter(filter)]: the visitor records the name of every
    atom and don't-care it meets; it does not enter an external
    sub-query, and values hold no boolean expression. *)
Fixpoint getParamsInFilter (filter : BooleanExpression) : gset string :=
  match filter with
  | BAtom name _ _ => {[ name ]}
  | BDontCare name => {[ name ]}
  | BExternal _ _ _ => ∅
  | BNot expr => getParamsInFilter expr
  | BAnd operands => ⋃ (map getParamsInFilter operands)
  | BOr operands => ⋃ (map getParamsInFilter operands)
  | BTrue | BFalse | BCompute _ _ _ => ∅
  end.

(** [setsIntersect(s1, s2)] *)
Definition setsIntersect (s1 s2 : gset string) : bool :=
  existsb (fun el => bool_decide (el ∈ s2)) (elements s1).

(** [neutralizeIDFilter(ast)] *)
Fixpoint neutralizeIDFilter (ast : BooleanExpression) : BooleanExpression :=
  match ast with
  | BNot expr => BNot (neutralizeIDFilter expr)
  | BOr operands => BOr (map neutralizeIDFilter operands)
  | BAnd operands => BAnd (map neutralizeIDFilter operands)
  | BTrue | BDontCare _ | BFalse | BCompute _ _ _ | BExternal _ _ _ => ast
  | BAtom name operator _ =>
      if (name =? "id") && (operator =? "==") then BTrue else ast
  end.

End Filters.

Arguments BooleanExpression value : clear implicits.

(** The boolean-expression primitives of the ThingTalk library. *)
Class FilterOps (value : Type) := {
  (** [filter.optimize()]: simplification *)
  optimize : BooleanExpression value → BooleanExpression value;
  (** [a.equals(b)] on boolean expressions *)
  filter_equals : BooleanExpression value → BooleanExpression value → bool;
}.

(** ** Refinement strategies *)

Section Strategies.
Context {value : Type} `{ValueOps value} `{FilterOps value}.

Local Abbreviation bexpr := (BooleanExpression value).

(** [refineFilterToAnswerQuestion(ctxFilter, refinedFilter)] *)
Definition refineFilterToAnswerQuestion (ctxFilter refinedFilter : bexpr)
    : option bexpr :=
  if setsIntersect (getParamsInFilter ctxFilter) (getParamsInFilter refinedFilter)
  then None
  else
    let clone := neutralizeIDFilter ctxFilter in
    Some (optimize (BAnd [clone; refinedFilter])).

(** A slot object: [slots[name] = clause] overwrites the clause of a key
    that is present and appends a new key otherwise; [for (key in slots)]
    walks the keys in insertion order.  (The write of the name
    [__proto__] replaces the prototype of the object instead: see
    [objectPrototypeNames].) *)
Fixpoint slots_set (name : string) (clause : bexpr)
    (slots : list (string * bexpr)) : list (string * bexpr) :=
  match slots with
  | [] => [(name, clause)]
  | (k, c) :: rest =>
      if k =? name then (k, clause) :: rest
      else (k, c) :: slots_set name clause rest
  end.

(** [slots[key]], among the own properties of the slot object.  This is
    what [slots[key]] evaluates to unless [key] names a member that the
    object inherits from [Object.prototype] ([objectPrototypeNames]): of
    such a key that is no own property, JavaScript finds the inherited
    member where this lookup finds nothing.  The loops of the strategies
    read a slot object by the keys of another one; the properties that
    depend on what such a read finds assume [plainSlotKeys] of the
    objects involved. *)
Fixpoint slots_get (key : string) (slots : list (string * bexpr))
    : option bexpr :=
  match slots with
  | [] => None
  | (k, c) :: rest => if k =? key then Some c else slots_get key rest
  end.

(** [filter.isAnd ? filter.operands : [filter]] *)
Definition operandsOf (f : bexpr) : list bexpr :=
  match f with
  | BAnd operands => operands
  | _ => [f]
  end.

(** [filterToNegatedSlots(filter)] *)
Definition filterToNegatedSlots (f : bexpr) : list (string * bexpr) :=
  let f := optimize f in
  fold_left (fun slots operand =>
               match operand with
               | BNot (BAtom name _ _) => slots_set name operand slots
               | BNot (BDontCare name) => slots_set name operand slots
               | _ => slots
               end)
            (operandsOf f) [].

(** [filterToSlots(filter)] *)
Definition filterToSlots (f : bexpr) : list (string * bexpr) :=
  let f := optimize f in
  fold_left (fun slots operand =>
               match operand with
               | BAtom name _ _ => slots_set name operand slots
               | BDontCare name => slots_set name operand slots
               | _ => slots
               end)
            (operandsOf f) [].

Definition isDontCare (f : bexpr) : bool :=
  match f with BDontCare _ => true | _ => false end.

(** The loop [for (let key in ctxSlots)] of
    [refineFilterToAnswerQuestionOrChangeFilter].  [None] is the early
    [return null]; otherwise the final [changedParam]. *)
Fixpoint checkCtxSlots (refinedSlots negatedRefinedSlots : list (string * bexpr))
    (ctxSlots : list (string * bexpr)) (changedParam : option string)
    : option (option string) :=
  match ctxSlots with
  | [] => Some changedParam
  | (key, ctxClause) :: rest =>
      if bool_decide (is_Some (slots_get key negatedRefinedSlots)) then None
      else
        match slots_get key refinedSlots with
        | Some refinedClause =>
            if isDontCare ctxClause then None
            else if filter_equals refinedClause ctxClause then None
            else if bool_decide (is_Some changedParam) then None
            else checkCtxSlots refinedSlots negatedRefinedSlots rest (Some key)
        | None =>
            checkCtxSlots refinedSlots negatedRefinedSlots rest changedParam
        end
  end.

(** [refineFilterToAnswerQuestionOrChangeFilter(ctxFilter, refinedFilter)] *)
Definition refineFilterToAnswerQuestionOrChangeFilter
    (ctxFilter refinedFilter : bexpr) : option bexpr :=
  let ctxFilter := optimize ctxFilter in
  let refinedFilter := optimize refinedFilter in
  let ctxSlots := filterToSlots ctxFilter in
  let refinedSlots := filterToSlots refinedFilter in
  let negatedRefinedSlots := filterToNegatedSlots refinedFilter in
  match checkCtxSlots refinedSlots negatedRefinedSlots ctxSlots None with
  | None => None
  | Some _ =>
      let newCtxClauses :=
        flat_map (fun clause =>
                    match clause with
                    | BAtom name _ _ | BDontCare name =>
                        if bool_decide (is_Some (slots_get name refinedSlots))
                        then []
                        else [neutralizeIDFilter clause]
                    | _ => [neutralizeIDFilter clause]
                    end)
                 (operandsOf ctxFilter) in
      Some (optimize (BAnd (newCtxClauses ++ [refinedFilter])))
  end.

(** Modelled from the spec: [C.filterUsesParam] of ast_manip.js, which is
    not among the sources.  The spec uses it as "the field appears in the
    predicate" (4.1) and "field constrained by the predicate" (4.2): the
    name is that of an atom or a don't-care of the predicate, an external
    sub-query not being entered, as in the visitors of this file. *)
Fixpoint filterUsesParam (f : bexpr) (pname : string) : bool :=
  match f with
  | BAtom name _ _ | BDontCare name => pname =? name
  | BNot expr => filterUsesParam expr pname
  | BAnd operands | BOr operands =>
      existsb (fun op => filterUsesParam op pname) operands
  | BTrue | BFalse | BExternal _ _ _ | BCompute _ _ _ => false
  end.

(** The visitor of [refineFilterToChangeFilter] run on one clause of the
    context: the final value of [good]. *)
Fixpoint clauseIsGood (refinedFilter clause : bexpr) : bool :=
  match clause with
  | BExternal _ _ _ => false
  | BAtom name _ _ | BDontCare name => negb (filterUsesParam refinedFilter name)
  | BNot expr => clauseIsGood refinedFilter expr
  | BAnd operands | BOr operands => forallb (clauseIsGood refinedFilter) operands
  | BTrue | BFalse | BCompute _ _ _ => true
  end.

(** [refineFilterToChangeFilter(ctxFilter, refinedFilter)] *)
Definition refineFilterToChangeFilter (ctxFilter refinedFilter : bexpr)
    : option bexpr :=
  let ctxFilter := optimize ctxFilter in
  let refinedFilter := optimize refinedFilter in
  let ctxSlots := filterToSlots ctxFilter in
  let refinedSlots := filterToSlots refinedFilter in
  if existsb (fun '(key, ctxClause) =>
                match slots_get key refinedSlots with
                | Some refinedClause => filter_equals refinedClause ctxClause
                | None => false
                end) ctxSlots
  then None
  else if existsb (fun '(key, _) =>
                     negb (bool_decide (is_Some (slots_get key ctxSlots))))
                  refinedSlots
  then None
  else
    let ctxClauses :=
      List.filter (clauseIsGood refinedFilter) (operandsOf ctxFilter) in
    Some (optimize (BAnd (ctxClauses ++ [refinedFilter]))).

End Strategies.

(** ** Query expressions (tables) *)

(** [Ast.FunctionDef], as far as the code reads it:
    [schema.class.name] and [schema.name]. *)
Record FunctionDef : Type := {
  class_name : string;
  name : string;
}.

Section Tables.
Context {value : Type} `{ValueOps value} `{FilterOps value}.

Local Abbreviation bexpr := (BooleanExpression value).

(** [Ast.Invocation]: the called function, its input parameters
    ([in_params], each a name bound to a value) and its schema. *)
Record Invocation : Type := {
  channel : string;
  in_params : list (string * value);
  inv_schema : FunctionDef;
}.

(** [Ast.Table].  Every node carries its child tables, its [schema] and,
    beyond them, the attributes the code reads ([filter], [args]); the
    other attributes of a node are neither read nor written here. *)
Inductive Table : Type :=
| TInvocation (invocation : Invocation) (schema : FunctionDef)
| TFilter (table : Table) (filter : bexpr) (schema : FunctionDef)
| TProjection (table : Table) (args : list string) (schema : FunctionDef)
| TSort (table : Table) (schema : FunctionDef)
| TIndex (table : Table) (schema : FunctionDef)
| TSlice (table : Table) (schema : FunctionDef)
| TCompute (table : Table) (schema : FunctionDef)
| TAlias (table : Table) (schema : FunctionDef)
| TJoin (lhs rhs : Table) (schema : FunctionDef)
| TAggregation (table : Table) (schema : FunctionDef)
| TVarRef (name : string) (schema : FunctionDef)
| TResultRef (kind : string) (schema : FunctionDef)
| TSequence (table : Table) (schema : FunctionDef)
| THistory (table : Table) (schema : FunctionDef)
| TWindow (schema : FunctionDef)
| TTimeSeries (schema : FunctionDef).

(** [table.schema] *)
Definition schemaOf (t : Table) : FunctionDef :=
  match t with
  | TInvocation _ s | TFilter _ _ s | TProjection _ _ s | TSort _ s
  | TIndex _ s | TSlice _ s | TCompute _ s | TAlias _ s | TJoin _ _ s
  | TAggregation _ s | TVarRef _ s | TResultRef _ s | TSequence _ s
  | THistory _ s | TWindow s | TTimeSeries s => s
  end.

(** A holder met by the search of [findOrMakeFilterTable]: a node the
    search went inside, without the child it went into. *)
Inductive Holder : Type :=
| HSort (schema : FunctionDef)
| HIndex (schema : FunctionDef)
| HSlice (schema : FunctionDef)
| HProjection (args : list string) (schema : FunctionDef)
| HCompute (schema : FunctionDef)
| HAlias (schema : FunctionDef)
| HJoin (lhs : Table) (schema : FunctionDef).

(** [holder.table = child], or [holder.rhs = child] on a join. *)
Definition setChild (holder : Holder) (child : Table) : Table :=
  match holder with
  | HSort s => TSort child s
  | HIndex s => TIndex child s
  | HSlice s => TSlice child s
  | HProjection args s => TProjection child args s
  | HCompute s => TCompute child s
  | HAlias s => TAlias child s
  | HJoin lhs s => TJoin lhs child s
  end.

(** The tree whose chain of holders, from the root down, is [holders] and
    whose node below the last holder is [node]. *)
Fixpoint plug (holders : list Holder) (node : Table) : Table :=
  match holders with
  | [] => node
  | h :: rest => setChild h (plug rest node)
  end.

(** The filter table that [findOrMakeFilterTable] returns is a node of the
    tree it returns: [holders] locates it, so that a later write into
    [filterTable.filter] is a write into the tree. *)
Record FilterTable : Type := {
  holders : list Holder;
  filterTable : Table;
}.

(** The [while (!table.isFilter)] loop of [findOrMakeFilterTable].
    [above] is the chain of holders passed so far, innermost first; the
    JS keeps the last one in [holder] and writes through it in place. *)
Fixpoint findFilterTableFrom (table : Table) (above : list Holder)
    : res (option FilterTable) :=
  match table with
  | TFilter _ _ _ =>
      Ret (Some {| holders := rev above; filterTable := table |})
  | TSequence _ _ | THistory _ _ | TWindow _ | TTimeSeries _ =>
      Throw NotImplemented
  | TAggregation _ _ | TVarRef _ _ | TResultRef _ _ =>
      Ret None
  | TSort t s => findFilterTableFrom t (HSort s :: above)
  | TIndex t s => findFilterTableFrom t (HIndex s :: above)
  | TSlice t s => findFilterTableFrom t (HSlice s :: above)
  | TProjection t args s => findFilterTableFrom t (HProjection args s :: above)
  | TCompute t s => findFilterTableFrom t (HCompute s :: above)
  | TAlias t s => findFilterTableFrom t (HAlias s :: above)
  | TJoin lhs rhs s => findFilterTableFrom rhs (HJoin lhs s :: above)
  | TInvocation _ schema =>
      let newFilterTable := TFilter table BTrue schema in
      Ret (Some {| holders := rev above; filterTable := newFilterTable |})
  end.

(** [findOrMakeFilterTable(root)]: the pair [[root, filterTable]], with
    [None] for [null]. *)
Definition findOrMakeFilterTable (root : Table)
    : res (option Table * option FilterTable) :=
  ft ← findFilterTableFrom root [];
  match ft with
  | None => Ret (None, None)
  | Some ft => Ret (Some (plug (holders ft) (filterTable ft)), Some ft)
  end.

(** A node the search does not go inside. *)
Definition isSearchEnd (t : Table) : bool :=
  match t with
  | TFilter _ _ _ | TInvocation _ _ | TAggregation _ _ | TVarRef _ _
  | TResultRef _ _ | TSequence _ _ | THistory _ _ | TWindow _
  | TTimeSeries _ => true
  | _ => false
  end.

Definition isInvocation (t : Table) : bool :=
  match t with TInvocation _ _ => true | _ => false end.

Definition isProjection (t : Table) : bool :=
  match t with TProjection _ _ _ => true | _ => false end.

Section QueryRefinement.
(** [C.resolveProjection] of ast_manip.js computes the schema of a new
    projection node; it is not among the sources and may throw. *)
Variable resolveProjection : list string → FunctionDef → res FunctionDef.

(** [queryRefinement(ctxTable, newFilter, refineFilter, newProjection)] *)
Definition queryRefinement (ctxTable : Table) (newFilter : bexpr)
    (refineFilter : bexpr → bexpr → option bexpr)
    (newProjection : option (list string)) : res (option Table) :=
  let cloneTable := ctxTable in
  '(cloneTable, found) ← findOrMakeFilterTable cloneTable;
  match found with
  | None => Throw TypeError          (* [filterTable.isFilter] on null *)
  | Some ft =>
      match filterTable ft with
      | TFilter inner ctxFilter schema =>
          assert (isInvocation inner);;
          match refineFilter ctxFilter newFilter with
          | None => Ret None
          | Some refinedFilter =>
              (* filterTable.filter = refinedFilter *)
              let cloneTable :=
                plug (holders ft) (TFilter inner refinedFilter schema) in
              match newProjection with
              | Some newProjection =>
                  let cloneTable :=
                    match cloneTable with
                    | TProjection t _ _ => t
                    | _ => cloneTable
                    end in
                  assert (negb (isProjection cloneTable));;
                  schema' ← resolveProjection newProjection (schemaOf cloneTable);
                  Ret (Some (TProjection cloneTable newProjection schema'))
              | None =>
                  let '(oldProjection, cloneTable) :=
                    match cloneTable with
                    | TProjection t args _ => (Some args, t)
                    | _ => (None, cloneTable)
                    end in
                  assert (negb (isProjection cloneTable));;
                  match oldProjection with
                  | Some oldProjection =>
                      let newProjection :=
                        List.filter
                          (fun pname => negb (filterUsesParam refinedFilter pname))
                          oldProjection in
                      if (0 <? length newProjection)%nat
                      then
                        schema' ← resolveProjection newProjection (schemaOf cloneTable);
                        Ret (Some (TProjection cloneTable newProjection schema'))
                      else Ret (Some cloneTable)
                  | None => Ret (Some cloneTable)
                  end
              end
          end
      | _ => Throw AssertionError     (* assert(filterTable.isFilter ...) *)
      end
  end.

End QueryRefinement.

End Tables.

Arguments Invocation value : clear implicits.
Arguments Table value : clear implicits.
Arguments Holder value : clear implicits.
Arguments FilterTable value : clear implicits.

(** ** Contexts, slot bags and grounding checks *)

Section Grounding.
Context {value : Type} `{ValueOps value} `{FilterOps value}.

(** Modelled from the spec: [arraySubset] of array_utils.js, which is not
    among the sources; "array-subset containment" (4.3): every element of
    [small] equals some element of [big]. *)
Definition arraySubset (small big : list value) : bool :=
  forallb (fun element => existsb (fun be => value_equals be element) big) small.

(** Modelled from the spec: [SlotBag] of slot_bag.js, which is not among
    the sources; "an ordered mapping from field name to value, scoped to
    one schema" (3), with unique keys.  [bag_store] lists the entries in
    insertion order. *)
Record SlotBag : Type := {
  bag_schema : FunctionDef;
  bag_store : list (string * value);
}.

(** [info.get(key)] *)
Definition bag_get (info : SlotBag) (key : string) : option value :=
  snd <$> List.find (fun entry => fst entry =? key) (bag_store info).

(** [info.has(key)] *)
Definition bag_has (info : SlotBag) (key : string) : bool :=
  bool_decide (is_Some (bag_get info key)).

(** [info.keys()] *)
Definition bag_keys (info : SlotBag) : list string :=
  map fst (bag_store info).

(** One materialized result; [item_value] is [result.value]. *)
Record ResultItem : Type := {
  item_value : gmap string value;
}.

(** [isInfoPhraseCompatibleWithResult(topResult, info)] *)
Definition isInfoPhraseCompatibleWithResult (topResult : ResultItem)
    (info : SlotBag) : bool :=
  forallb (fun '(pname, infoValue) =>
             match item_value topResult !! pname with
             | None => false
             | Some resultValue =>
                 match array_elems resultValue, array_elems infoValue with
                 | Some resultElems, Some infoElems =>
                     arraySubset infoElems resultElems
                 | _, _ => value_equals resultValue infoValue
                 end
             end)
          (bag_store info).

(** [ctx.nextInfo], as far as the code reads it. *)
Record NextStatementInfo : Type := {
  isAction : bool;
}.

Section Contexts.
(** A turn of the dialogue history ([ctx.next]) and
    [getActionInvocation] of state_manip.js, which is not among the
    sources. *)
Context {HistoryItem : Type}.
Variable getActionInvocation : option HistoryItem → res (Invocation value).

(** The context info, as far as the code reads it. *)
Record ContextInfo : Type := {
  currentFunction : option string;
  results : list ResultItem;
  resultInfo_projection : option (list string);
  nextInfo : option NextStatementInfo;
  next : option HistoryItem;
}.

(** The object that the recommendation makers return. *)
Record Recommendation : Type := {
  topResult : ResultItem;
  rec_ctx : option ContextInfo;
  info : option SlotBag;
  action : option (Invocation value);
}.

(** [makeActionRecommendation(ctx, action)] *)
Definition makeActionRecommendation (ctx : ContextInfo)
    (action : Invocation value) : res (option Recommendation) :=
  let results := results ctx in
  assert (0 <? length results)%nat;;
  match results with
  | [] => Throw TypeError
  | topResult :: _ =>
      match item_value topResult !! "id" with
      | None => Ret None
      | Some id =>
          if existsb (fun param => value_equals (snd param) id) (in_params action)
          then Ret (Some {| topResult := topResult; rec_ctx := None;
                            info := None; action := Some action |})
          else Ret None
      end
  end.

(** [makeRecommendation(ctx, name)] *)
Definition makeRecommendation (ctx : ContextInfo) (name : value)
    : res (option Recommendation) :=
  let results := results ctx in
  assert (0 <? length results)%nat;;
  match results with
  | [] => Throw TypeError
  | topResult :: _ =>
      match item_value topResult !! "id" with
      | None => Ret None
      | Some id =>
          if negb (value_equals id name) then Ret None
          else
            action ←
              match nextInfo ctx with
              | Some ni =>
                  if isAction ni then Some <$> getActionInvocation (next ctx)
                  else Ret None
              | None => Ret None
              end;
            Ret (Some {| topResult := topResult; rec_ctx := Some ctx;
                         info := None; action := action |})
      end
  end.

(** The last part of [checkInfoPhrase]: the flag [good] after the loop
    over the first [Math.min(3, results.length)] results. *)
Definition compatibleWithTop3 (results : list ResultItem) (info : SlotBag)
    : bool :=
  existsb (fun result => isInfoPhraseCompatibleWithResult result info)
          (take (3 `min` length results) results).

(** [checkInfoPhrase(ctx, info)] *)
Definition checkInfoPhrase (ctx : ContextInfo) (info : SlotBag)
    : res (option SlotBag) :=
  if negb (bool_decide
             (currentFunction ctx =
              Some (class_name (bag_schema info) ++ ":" ++ name (bag_schema info))))
  then Ret None
  else
    namesOk ←
      match resultInfo_projection ctx with
      | Some projection =>
          Ret (forallb (fun name => bag_has info name) projection)
      | None =>
          match results ctx with
          | [] => Throw AssertionError       (* assert(topResult) *)
          | topResult :: _ =>
              Ret (forallb (fun name =>
                              bool_decide (is_Some (item_value topResult !! name)))
                           (bag_keys info))
          end
      end;
    if negb namesOk then Ret None
    else if compatibleWithTop3 (results ctx) info then Ret (Some info)
    else Ret None.

End Contexts.

End Grounding.

Arguments SlotBag value : clear implicits.
Arguments ResultItem value : clear implicits.
Arguments ContextInfo value HistoryItem : clear implicits.
Arguments Recommendation value HistoryItem : clear implicits.

(** ** A simplifier and a value type to run the embedding on *)

Section Simplifier.
Context {value : Type} `{ValueOps value}.

Local Abbreviation bexpr := (BooleanExpression value).

Definition isTrue (f : bexpr) : bool :=
  match f with BTrue => true | _ => false end.

Definition isFalse (f : bexpr) : bool :=
  match f with BFalse => true | _ => false end.

Definition andOperands (f : bexpr) : list bexpr :=
  match f with
  | BAnd operands => operands
  | BTrue => []
  | _ => [f]
  end.

Definition orOperands (f : bexpr) : list bexpr :=
  match f with
  | BOr operands => operands
  | BFalse => []
  | _ => [f]
  end.

Definition mkAnd (operands : list bexpr) : bexpr :=
  if existsb isFalse operands then BFalse
  else match operands with
       | [] => BTrue
       | [operand] => operand
       | _ => BAnd operands
       end.

Definition mkOr (operands : list bexpr) : bexpr :=
  if existsb isTrue operands then BTrue
  else match operands with
       | [] => BFalse
       | [operand] => operand
       | _ => BOr operands
       end.

(** Modelled from the spec: [optimize] of the ThingTalk library, an
    external primitive (6); "after simplification, And/Or are flattened
    (no direct nesting of same kind) and absorb True/False" (3). *)
Fixpoint simplify (f : bexpr) : bexpr :=
  match f with
  | BAnd operands => mkAnd (flat_map (fun op => andOperands (simplify op)) operands)
  | BOr operands => mkOr (flat_map (fun op => orOperands (simplify op)) operands)
  | BNot expr =>
      match simplify expr with
      | BTrue => BFalse
      | BFalse => BTrue
      | expr' => BNot expr'
      end
  | _ => f
  end.

(** Structural equality of boolean expressions over [value_equals], the
    [equals] of the ThingTalk library. *)
Fixpoint structural_equals (a b : bexpr) : bool :=
  match a, b with
  | BTrue, BTrue | BFalse, BFalse => true
  | BDontCare n, BDontCare m => n =? m
  | BAtom n op v, BAtom m op' w => (n =? m) && (op =? op') && value_equals v w
  | BNot e, BNot e' => structural_equals e e'
  | BAnd l, BAnd l' | BOr l, BOr l' =>
      (fix go (l l' : list bexpr) : bool :=
         match l, l' with
         | [], [] => true
         | x :: l, y :: l' => structural_equals x y && go l l'
         | _, _ => false
         end) l l'
  | BExternal ch ps f, BExternal ch' ps' f' =>
      (ch =? ch') && structural_equals f f'
      && (fix go (l l' : list (string * value)) : bool :=
            match l, l' with
            | [], [] => true
            | (n, v) :: l, (m, w) :: l' => (n =? m) && value_equals v w && go l l'
            | _, _ => false
            end) ps ps'
  | BCompute l op r, BCompute l' op' r' =>
      value_equals l l' && (op =? op') && value_equals r r'
  | _, _ => false
  end.

Definition simplifier : FilterOps value :=
  {| optimize := simplify; filter_equals := structural_equals |}.

End Simplifier.

(** A small value type: strings, numbers, entities and arrays.  The
    JavaScript form of a string or a number is a primitive, compared by
    [===] on its contents; that of an entity or an array is a fresh
    object, which [===] never identifies with another. *)
Inductive Value : Type :=
| VString (s : string)
| VNumber (n : Z)
| VEntity (v : string) (type : string)
| VArray (elems : list Value).

Fixpoint Value_equals (a b : Value) : bool :=
  match a, b with
  | VString s, VString t => s =? t
  | VNumber n, VNumber m => (n =? m)%Z
  | VEntity v ty, VEntity w ty' => (v =? w) && (ty =? ty')
  | VArray l, VArray l' =>
      (fix go (l l' : list Value) : bool :=
         match l, l' with
         | [], [] => true
         | x :: l, y :: l' => Value_equals x y && go l l'
         | _, _ => false
         end) l l'
  | _, _ => false
  end.

Definition Value_toJS_strict_eq (a b : Value) : bool :=
  match a, b with
  | VString s, VString t => s =? t
  | VNumber n, VNumber m => (n =? m)%Z
  | _, _ => false
  end.

#[global] Instance Value_ops : ValueOps Value := {|
  value_equals := Value_equals;
  toJS_strict_eq := Value_toJS_strict_eq;
  array_elems := fun v => match v with VArray l => Some l | _ => None end;
|}.

#[global] Instance Value_simplifier : FilterOps Value := simplifier.

(** ** Notions of the specification *)

Section SpecNotions.
Context {value : Type} `{ValueOps value}.

Local Abbreviation bexpr := (BooleanExpression value).

(** "The field appears in the predicate": it is the field of an atom or
    of a don't-care of the predicate, below any nesting of [Not], [And]
    and [Or].  The predicate of an external sub-query is over the fields
    of another function. *)
Inductive FieldOf (field : string) : bexpr → Prop :=
| FieldOf_atom op v : FieldOf field (BAtom field op v)
| FieldOf_dontcare : FieldOf field (BDontCare field)
| FieldOf_not e : FieldOf field e → FieldOf field (BNot e)
| FieldOf_and e ops : In e ops → FieldOf field e → FieldOf field (BAnd ops)
| FieldOf_or e ops : In e ops → FieldOf field e → FieldOf field (BOr ops).


(** "The clause contains an External sub-predicate." *)
Fixpoint containsExternal (f : bexpr) : bool :=
  match f with
  | BExternal _ _ _ => true
  | BNot expr => containsExternal expr
  | BAnd operands | BOr operands => existsb containsExternal operands
  | _ => false
  end.

(** The clauses of the old predicate that changeFilter keeps, in the
    words of the specification: no field of the clause appears in the
    new predicate, and the clause contains no External sub-predicate. *)
Definition keptByChangeFilter (new clause : bexpr) : bool :=
  bool_decide (getParamsInFilter clause ## getParamsInFilter new)
  && negb (containsExternal clause).

(** "Array-subset containment (array-typed) or scalar equality" between
    the value of a result row and the value of a slot bag. *)
Definition valueGrounded (resultValue infoValue : value) : Prop :=
  match array_elems resultValue, array_elems infoValue with
  | Some resultElems, Some infoElems =>
      ∀ element, In element infoElems →
        ∃ be, In be resultElems ∧ value_equals be element = true
  | _, _ => value_equals resultValue infoValue = true
  end.

(** "The row has that field and satisfies containment or equality with
    the bag's value." *)
Definition fieldGrounded (result : ResultItem value) (pname : string)
    (infoValue : value) : Prop :=
  ∃ resultValue, item_value result !! pname = Some resultValue
                 ∧ valueGrounded resultValue infoValue.

End SpecNotions.

(** ** Notions for the further properties *)

Section FurtherNotions.
Context {value : Type} `{ValueOps value}.

Local Abbreviation bexpr := (BooleanExpression value).

(** The predicate holds an atom [id == _], outside external
    sub-queries. *)
Fixpoint hasIdEquality (f : bexpr) : bool :=
  match f with
  | BAtom name operator _ => (name =? "id") && (operator =? "==")
  | BNot expr => hasIdEquality expr
  | BAnd operands | BOr operands => existsb hasIdEquality operands
  | _ => false
  end.

(** The field of a clause that [filterToSlots] records: that of an Atom
    or of a DontCare. *)
Definition slotName (clause : bexpr) : option string :=
  match clause with
  | BAtom name _ _ | BDontCare name => Some name
  | _ => None
  end.

(** The field of a clause that [filterToNegatedSlots] records: that of
    the negation of an Atom or of a DontCare. *)
Definition negatedSlotName (clause : bexpr) : option string :=
  match clause with
  | BNot (BAtom name _ _) | BNot (BDontCare name) => Some name
  | _ => None
  end.

(** The loop that fills a slot object from a list of operands, for either
    way of naming a clause. *)
Definition collectSlots (nameOf : bexpr → option string)
    (operands : list bexpr) (slots : list (string * bexpr))
    : list (string * bexpr) :=
  fold_left (fun slots operand =>
               match nameOf operand with
               | Some name => slots_set name operand slots
               | None => slots
               end)
            operands slots.

End FurtherNotions.

(** ** Field names and the members of a plain object *)

(** The property names of [Object.prototype]: the members that a plain
    object ([slots = {}]) inherits.  A read [slots[key]] of such a name
    finds the inherited member when the object has no own property of the
    name, and the write [slots["__proto__"] = clause] replaces the
    prototype of the object instead of adding a property. *)
Definition objectPrototypeNames : list string :=
  [ "constructor"; "hasOwnProperty"; "isPrototypeOf"; "propertyIsEnumerable";
    "toLocaleString"; "toString"; "valueOf"; "__proto__";
    "__defineGetter__"; "__defineSetter__";
    "__lookupGetter__"; "__lookupSetter__" ].

(** The field name is that of no member of [Object.prototype]. *)
Definition plainFieldName (name : string) : bool :=
  negb (existsb (String.eqb name) objectPrototypeNames).

(** No key of the slot object names a member of [Object.prototype]: every
    write that filled the object added or overwrote an own property, as
    [slots_set] does, and a read of the object, or of another such object
    by one of these keys, finds what [slots_get] finds. *)
Definition plainSlotKeys {A : Type} (slots : list (string * A)) : bool :=
  forallb (fun '(key, _) => plainFieldName key) slots.

Section ChangeFilterNotions.
Context {value : Type}.

Local Abbreviation bexpr := (BooleanExpression value).

(** The clauses of the old predicate that changeFilter keeps, by the
    verdicts of the helper [C.filterUsesParam]: the helper finds no field
    of the clause (that of an atom or of a don't-care, outside external
    sub-queries) used by the new predicate, and the clause contains no
    External sub-predicate. *)
Definition keptUnusedBy (new clause : bexpr) : bool :=
  negb (containsExternal clause)
  && forallb (fun pname => negb (filterUsesParam new pname))
             (elements (getParamsInFilter clause)).

End ChangeFilterNotions.

(** ** Further functions of the dialogue helpers *)

(** The schema and type registry, as far as the further functions call
    it: the type of a value, equality of types, and the lookup of an
    argument of a function and of its type. *)
Class SchemaRegistry (value ty : Type) := {
  (** [v.getType()] *)
  getType : value → ty;
  (** [t1.equals(t2)] on types *)
  type_equals : ty → ty → bool;
  (** [schema.getArgType(name)], absent when there is no such argument *)
  getArgType : FunctionDef → string → option ty;
  (** [schema.getArgument(name)]: is the argument an input, and its
      [filterable] annotation if it has one *)
  getArgument : FunctionDef → string → option (bool * option bool);
}.

Section FurtherFunctions.
Context {value ty : Type} `{ValueOps value} `{FilterOps value}
        `{SchemaRegistry value ty}.

Local Abbreviation bexpr := (BooleanExpression value).

(** Modelled from the spec: [SlotBag.set] of slot_bag.js, which is not
    among the sources; the bag is "an ordered mapping from field name to
    value" with unique keys (3): the value of a key that is present is
    overwritten in place, a new key is appended. *)
Fixpoint store_set (key : string) (v : value) (store : list (string * value))
    : list (string * value) :=
  match store with
  | [] => [(key, v)]
  | (k, w) :: rest =>
      if k =? key then (k, v) :: rest else (k, w) :: store_set key v rest
  end.

(** [bag.set(key, v)] *)
Definition bag_set (bag : SlotBag value) (key : string) (v : value)
    : SlotBag value :=
  {| bag_schema := bag_schema bag;
     bag_store := store_set key v (bag_store bag) |}.

Section ReplacePlaceholders.
(** [v.isConstant()] *)
Variable isConstant : value → bool.

(** The loop of [replaceSlotBagPlaceholders] over the indices of [names],
    which has the length of [args]. *)
Fixpoint replaceSlots (clone : SlotBag value) (names : list (option string))
    (args : list value) : res (SlotBag value) :=
  match names, args with
  | name :: names', v :: args' =>
      match name with
      | None => replaceSlots clone names' args'
      | Some name =>
          assert (isConstant v);;
          replaceSlots (bag_set clone name v) names' args'
      end
  | _, _ => Ret clone
  end.

(** [replaceSlotBagPlaceholders(bag, names, args)] *)
Definition replaceSlotBagPlaceholders (bag : SlotBag value)
    (names : list (option string)) (args : list value)
    : res (option (SlotBag value)) :=
  let clone := bag in
  assert (length names =? length args)%nat;;
  clone ← replaceSlots clone names args;
  Ret (Some clone).

End ReplacePlaceholders.

(** [undefined] for the [value] of an expression that is no atom. *)
Definition atomValue (f : bexpr) : option value :=
  match f with
  | BAtom _ _ v => Some v
  | _ => None
  end.

(** The loop of [checkFilterPairForDisjunctiveQuestion] over the results:
    [None] is the early [return null], otherwise the final flags. *)
Fixpoint findBothValues (pname : string) (v1 v2 : value)
    (results : list (ResultItem value)) (good1 good2 : bool)
    : option (bool * bool) :=
  match results with
  | [] => Some (good1, good2)
  | result :: rest =>
      match item_value result !! pname with
      | None => None
      | Some v =>
          let good1 := if value_equals v v1 then true else good1 in
          let good2 := if value_equals v v2 then true else good2 in
          if good1 && good2 then Some (good1, good2)
          else findBothValues pname v1 v2 rest good1 good2
      end
  end.

(** [checkFilterPairForDisjunctiveQuestion(ctx, f1, f2)], on
    [ctx.results] *)
Definition checkFilterPairForDisjunctiveQuestion
    (results : list (ResultItem value)) (f1 f2 : bexpr)
    : res (option (string * ty)) :=
  if negb (bool_decide (slotName f1 = slotName f2)) then Ret None
  else
    match atomValue f1, atomValue f2, slotName f1 with
    | Some v1, Some v2, Some pname =>
        if negb (type_equals (getType v1) (getType v2)) then Ret None
        else if value_equals v1 v2 then Ret None
        else
          match findBothValues pname v1 v2 results false false with
          | None => Ret None
          | Some (good1, good2) =>
              if negb good1 || negb good2 then Ret None
              else Ret (Some (pname, getType v1))
          end
    | _, _, _ => Throw TypeError       (* [f.value.getType()] on undefined *)
    end.

(** [Ast.Statement.Command], as far as [addDontCare] reads it:
    [stmt.table], null for a statement of actions only. *)
Record Statement : Type := {
  stmt_table : option (Table value);
}.

(** [addDontCare(stmt, dontcare)], for the DontCare expression on the
    field [pname]. *)
Definition addDontCare (stmt : Statement) (pname : string)
    : res (option Statement) :=
  match stmt_table stmt with
  | None => Ret None
  | Some table =>
      match getArgument (schemaOf table) pname with
      | None => Ret None
      | Some (arg_is_input, arg_filterable) =>
          if arg_is_input then Ret None
          else if bool_decide (arg_filterable = Some false) then Ret None
          else
            '(cloneTable, found) ← findOrMakeFilterTable table;
            match found with
            | None => Throw TypeError      (* [filterTable.filter] on null *)
            | Some ft =>
                match filterTable ft with
                | TFilter inner ctxFilter schema =>
                    if filterUsesParam ctxFilter pname then Ret None
                    else
                      let newFilter :=
                        optimize (BAnd [ctxFilter; BDontCare pname]) in
                      Ret (Some {| stmt_table :=
                                     Some (plug (holders ft)
                                             (TFilter inner newFilter schema)) |})
                | _ => Throw TypeError
                end
            end
      end
  end.

(** [makeRefinementProposal(ctx, proposal)], on the table
    [ctx.current.stmt.table] of the context. *)
Definition makeRefinementProposal (currentTable : Table value)
    (proposal : Table value) : res (option (Table value)) :=
  match proposal with
  | TFilter (TInvocation _ _) proposalFilter _ =>
      '(ctxTable, found) ← findOrMakeFilterTable currentTable;
      match found with
      | None => Ret None
      | Some ft =>
          match filterTable ft with
          | TFilter _ ctxFilter _ =>
              match refineFilterToAnswerQuestion ctxFilter proposalFilter with
              | None => Ret None
              | Some _ => Ret (Some proposal)
              end
          | _ => Throw TypeError
          end
      end
  | _ => Throw AssertionError
  end.

Section MergePreamble.
(** [C.isSameFunction] of ast_manip.js, which is not among the
    sources. *)
Variable isSameFunction : FunctionDef → FunctionDef → bool.

(** [mergePreambleAndRequest(pair, request)], for a [pair] of tables. *)
Definition mergePreambleAndRequest (pair : list (Table value))
    (request : Table value) : res (option (list (Table value))) :=
  match last pair with
  | None => Throw TypeError              (* [preamble.schema] on undefined *)
  | Some preamble =>
      if negb (isSameFunction (schemaOf preamble) (schemaOf request))
      then Ret None
      else
        match preamble, request with
        | TFilter _ preambleFilter _, TFilter requestTable requestFilter requestSchema =>
            match refineFilterToChangeFilter preambleFilter requestFilter with
            | None => Ret None
            | Some _ =>
                Ret (Some (take (length pair - 1) pair
                           ++ [TFilter requestTable
                                 (BAnd [BNot preambleFilter; requestFilter])
                                 requestSchema])%list)
            end
        | _, _ => Throw TypeError        (* [optimize] on an undefined filter *)
        end
  end.

End MergePreamble.

Section CheckProposals.
Context {HistoryItem : Type}.
Variable getActionInvocation : option HistoryItem → res (Invocation value).

(** [checkRecommendation({ topResult, action }, info)] *)
Definition checkRecommendation (rec : Recommendation value HistoryItem)
    (info : SlotBag value) : res (option (Recommendation value HistoryItem)) :=
  match item_value (topResult rec) !! "id" with
  | None => Throw TypeError              (* [id.getType()] on undefined *)
  | Some id =>
      let resultType := getType id in
      match getArgType (bag_schema info) "id" with
      | None => Ret None
      | Some idType =>
          if negb (type_equals idType resultType) then Ret None
          else if negb (isInfoPhraseCompatibleWithResult (topResult rec) info)
          then Ret None
          else Ret (Some {| topResult := topResult rec; rec_ctx := None;
                            info := Some info; action := action rec |})
      end
  end.

(** [checkListProposal(ctx, results, info)] *)
Definition checkListProposal (ctx : ContextInfo value HistoryItem)
    (results : list (ResultItem value)) (info : SlotBag value)
    : res (option (list (ResultItem value) * SlotBag value
                   * option (Invocation value))) :=
  match results with
  | [] => Throw TypeError                (* [results[0].value] on undefined *)
  | first :: _ =>
      match item_value first !! "id" with
      | None => Throw TypeError
      | Some id =>
          let resultType := getType id in
          match getArgType (bag_schema info) "id" with
          | None => Ret None
          | Some idType =>
              if negb (type_equals idType resultType) then Ret None
              else if negb (forallb (fun result =>
                                       isInfoPhraseCompatibleWithResult result info)
                                    results)
              then Ret None
              else
                action ←
                  match nextInfo ctx with
                  | Some ni =>
                      if isAction ni then Some <$> getActionInvocation (next ctx)
                      else Ret None
                  | None => Ret None
                  end;
                Ret (Some (results, info, action))
          end
      end
  end.

End CheckProposals.

End FurtherFunctions.

Arguments Statement value : clear implicits.

(** A registry to run the further functions on: strings, numbers, arrays
    and entities of a named kind as types, and functions whose outputs
    are [id], an entity of the function's own kind, and a few fields of
    restaurants. *)
Definition Value_getType (v : Value) : string :=
  match v with
  | VString _ => "String"
  | VNumber _ => "Number"
  | VEntity _ type => "Entity(" ++ type ++ ")"
  | VArray _ => "Array"
  end.

Definition sample_getArgType (schema : FunctionDef) (pname : string)
    : option string :=
  if pname =? "id" then Some ("Entity(" ++ name schema ++ ")")
  else if (pname =? "cuisine") || (pname =? "price_range") || (pname =? "address")
  then Some "String"
  else if pname =? "rating" then Some "Number"
  else None.

#[global] Instance Value_registry : SchemaRegistry Value string := {|
  getType := Value_getType;
  type_equals := String.eqb;
  getArgType := sample_getArgType;
  getArgument := fun schema pname =>
    match sample_getArgType schema pname with
    | Some _ => Some (false, None)
    | None => None
    end;
|}.

(** * Properties *)

(** ** Identity neutralization *)

Section NeutralizeFacts.
Context {value : Type} `{ValueOps value}.

Local Abbreviation bexpr := (BooleanExpression value).

Lemma neutralizeIDFilter_idempotent (f : bexpr) :
  neutralizeIDFilter (neutralizeIDFilter f) = neutralizeIDFilter f.
Proof.
  induction f as [| | n | n op v | e IH | ops IH | ops IH | ch ps g IH | l op r]
    using BooleanExpression_nested_ind; simpl; try reflexivity.
  - destruct ((n =? "id") && (op =? "==")) eqn:E; simpl; [reflexivity |].
    by rewrite E.
  - by rewrite IH.
  - f_equal. rewrite map_map. apply map_ext_Forall. exact IH.
  - f_equal. rewrite map_map. apply map_ext_Forall. exact IH.
Qed.

Lemma union_list_difference_ext (g h : bexpr → gset string) (X : gset string)
    (ops : list bexpr) :
  Forall (fun op => g op ∖ X = h op ∖ X) ops →
  ⋃ (map g ops) ∖ X = ⋃ (map h ops) ∖ X.
Proof.
  induction 1 as [| op ops Hop _ IH]; simpl; [reflexivity |].
  rewrite difference_union_distr_l_L, Hop, IH. set_solver.
Qed.

Lemma neutralizeIDFilter_other_fields (f : bexpr) :
  getParamsInFilter (neutralizeIDFilter f) ∖ {["id"]}
  = getParamsInFilter f ∖ {["id"]}.
Proof.
  induction f as [| | n | n op v | e IH | ops IH | ops IH | ch ps g IH | l op r]
    using BooleanExpression_nested_ind; simpl; try reflexivity.
  - destruct ((n =? "id") && (op =? "==")) eqn:E; simpl; [| reflexivity].
    apply andb_true_iff in E as [En _]. apply String.eqb_eq in En. subst n.
    set_solver.
  - exact IH.
  - rewrite map_map. by apply union_list_difference_ext.
  - rewrite map_map. by apply union_list_difference_ext.
Qed.

(** C9.  Identity neutralization is idempotent, and it leaves the set of
    constrained fields other than the identifier field [id] unchanged:
    a field other than [id] is a field of the neutralized predicate
    exactly when it is a field of the predicate. *)
Theorem neutralizeIDFilter_purity (f : bexpr) :
  neutralizeIDFilter (neutralizeIDFilter f) = neutralizeIDFilter f
  ∧ getParamsInFilter (neutralizeIDFilter f) ∖ {["id"]}
    = getParamsInFilter f ∖ {["id"]}
  ∧ ∀ field : string, field ≠ "id" →
      (field ∈ getParamsInFilter (neutralizeIDFilter f)
       ↔ field ∈ getParamsInFilter f).
Proof.
  split; [apply neutralizeIDFilter_idempotent |].
  split; [apply neutralizeIDFilter_other_fields |].
  intros field Hne.
  pose proof (neutralizeIDFilter_other_fields f) as E.
  split; intros Hin.
  - assert (field ∈ getParamsInFilter (neutralizeIDFilter f) ∖ {["id"]}) as Hd
      by set_solver.
    rewrite E in Hd. set_solver.
  - assert (field ∈ getParamsInFilter f ∖ {["id"]}) as Hd by set_solver.
    rewrite <- E in Hd. set_solver.
Qed.

End NeutralizeFacts.

(** ** The answerQuestion strategy *)

Section AnswerQuestionFacts.
Context {value : Type} `{ValueOps value} `{FilterOps value}.

Local Abbreviation bexpr := (BooleanExpression value).

Lemma setsIntersect_true (s1 s2 : gset string) :
  setsIntersect s1 s2 = true ↔ ∃ el, el ∈ s1 ∧ el ∈ s2.
Proof.
  unfold setsIntersect. rewrite existsb_exists. split.
  - intros (el & Hin & Hel). exists el.
    apply list_elem_of_In, elem_of_elements in Hin.
    apply bool_decide_eq_true in Hel. done.
  - intros (el & H1 & H2). exists el. split.
    + by apply list_elem_of_In, elem_of_elements.
    + by apply bool_decide_eq_true.
Qed.

Lemma setsIntersect_false (s1 s2 : gset string) :
  setsIntersect s1 s2 = false ↔ s1 ## s2.
Proof.
  rewrite <- not_true_iff_false, setsIntersect_true. set_solver.
Qed.

Lemma getParamsInFilter_FieldOf (field : string) (f : bexpr) :
  field ∈ getParamsInFilter f ↔ FieldOf field f.
Proof.
  induction f as [| | n | n op v | e IH | ops IH | ops IH | ch ps g IH | l op r]
    using BooleanExpression_nested_ind; simpl.
  - split; [set_solver | inversion 1].
  - split; [set_solver | inversion 1].
  - rewrite elem_of_singleton. split; [intros ->; constructor | by inversion 1].
  - rewrite elem_of_singleton. split; [intros ->; constructor | by inversion 1].
  - rewrite IH. split; [by constructor | by inversion 1].
  - rewrite elem_of_union_list. split.
    + intros (X & HX & Hin). apply list_elem_of_In, in_map_iff in HX as (e & <- & He).
      rewrite Forall_forall in IH. apply (FieldOf_and _ e); [done |].
      apply IH; [by apply list_elem_of_In | done].
    + inversion 1 as [| | | e ops' He Hf |]; subst.
      exists (getParamsInFilter e). split.
      * apply list_elem_of_In, in_map_iff. eauto.
      * rewrite Forall_forall in IH. apply IH; [by apply list_elem_of_In | done].
  - rewrite elem_of_union_list. split.
    + intros (X & HX & Hin). apply list_elem_of_In, in_map_iff in HX as (e & <- & He).
      rewrite Forall_forall in IH. apply (FieldOf_or _ e); [done |].
      apply IH; [by apply list_elem_of_In | done].
    + inversion 1 as [| | | | e ops' He Hf]; subst.
      exists (getParamsInFilter e). split.
      * apply list_elem_of_In, in_map_iff. eauto.
      * rewrite Forall_forall in IH. apply IH; [by apply list_elem_of_In | done].
  - split; [set_solver | inversion 1].
  - split; [set_solver | inversion 1].
Qed.

(** C5.  The answerQuestion strategy rejects exactly when some field
    appears in both the old and the new predicate; otherwise it returns
    the simplification of [And(neutralizeIdentity(old), new)]. *)
Theorem refineFilterToAnswerQuestion_spec (old new : bexpr) :
  (refineFilterToAnswerQuestion old new = None
   ↔ ∃ field, FieldOf field old ∧ FieldOf field new)
  ∧ ((∃ field, FieldOf field old ∧ FieldOf field new)
       ∧ refineFilterToAnswerQuestion old new = None
     ∨ (¬ ∃ field, FieldOf field old ∧ FieldOf field new)
       ∧ refineFilterToAnswerQuestion old new
         = Some (optimize (BAnd [neutralizeIDFilter old; new]))).
Proof.
  assert ((∃ field, FieldOf field old ∧ FieldOf field new)
          ↔ setsIntersect (getParamsInFilter old) (getParamsInFilter new) = true)
    as Hiff.
  { rewrite setsIntersect_true.
    split; intros (field & H1 & H2); exists field;
      by rewrite ?getParamsInFilter_FieldOf in *. }
  unfold refineFilterToAnswerQuestion.
  destruct (setsIntersect _ _) eqn:E.
  - split; [split; [intros _; by apply Hiff | done] |].
    left. split; [by apply Hiff | done].
  - split; [split; [done | intros Hex; apply Hiff in Hex; done] |].
    right. split; [| done]. intros Hex. apply Hiff in Hex. done.
Qed.

End AnswerQuestionFacts.

(** ** Compatibility with result rows *)

Section CompatibilityFacts.
Context {value : Type} `{ValueOps value}.

Local Abbreviation bexpr := (BooleanExpression value).









End CompatibilityFacts.

Section AnswerQuestionMonotonicity.
Context {value : Type} `{ValueOps value}.

Local Abbreviation bexpr := (BooleanExpression value).

(** The simplification of the ThingTalk library is the one that the
    specification describes. *)
Local Existing Instance simplifier.


End AnswerQuestionMonotonicity.



(** ** The search for the filter attachment *)

Section AttachmentFacts.
Context {value : Type} `{ValueOps value} `{FilterOps value}.

Local Abbreviation bexpr := (BooleanExpression value).

(** Going down a chain of holders only records the holders passed. *)
Lemma findFilterTableFrom_plug (hs above : list (Holder value))
    (node : Table value) :
  findFilterTableFrom (plug hs node) above
  = findFilterTableFrom node (rev hs ++ above).
Proof.
  revert above. induction hs as [| h hs IH]; intros above; [reflexivity |].
  destruct h; simpl; rewrite IH, <- app_assoc; reflexivity.
Qed.

(** The search below a chain of holders is the search from the node
    under the chain, the chain being recorded. *)
Lemma findOrMakeFilterTable_plug (hs : list (Holder value)) (node : Table value) :
  findOrMakeFilterTable (plug hs node)
  = ft ← findFilterTableFrom node (rev hs);
    match ft with
    | None => Ret (None, None)
    | Some ft => Ret (Some (plug (holders ft) (filterTable ft)), Some ft)
    end.
Proof.
  unfold findOrMakeFilterTable.
  by rewrite findFilterTableFrom_plug, app_nil_r.
Qed.

(** Every tree is a chain of holders over the node where the search
    ends. *)
Lemma table_decompose (t : Table value) :
  ∃ hs node, t = plug hs node ∧ isSearchEnd node = true.
Proof.
  induction t as [inv s | t IH f s | t IH args s | t IH s | t IH s | t IH s
                 | t IH s | t IH s | l IHl r IHr s | t IH s | n s | k s
                 | t IH s | t IH s | s | s].
  - by exists [], (TInvocation inv s).
  - by exists [], (TFilter t f s).
  - destruct IH as (hs & node & -> & Hend).
    by exists (HProjection args s :: hs), node.
  - destruct IH as (hs & node & -> & Hend). by exists (HSort s :: hs), node.
  - destruct IH as (hs & node & -> & Hend). by exists (HIndex s :: hs), node.
  - destruct IH as (hs & node & -> & Hend). by exists (HSlice s :: hs), node.
  - destruct IH as (hs & node & -> & Hend). by exists (HCompute s :: hs), node.
  - destruct IH as (hs & node & -> & Hend). by exists (HAlias s :: hs), node.
  - destruct IHr as (hs & node & -> & Hend). by exists (HJoin l s :: hs), node.
  - by exists [], (TAggregation t s).
  - by exists [], (TVarRef n s).
  - by exists [], (TResultRef k s).
  - by exists [], (TSequence t s).
  - by exists [], (THistory t s).
  - by exists [], (TWindow s).
  - by exists [], (TTimeSeries s).
Qed.

(** The tree returned with a filter table is the chain of holders around
    that filter table: the filter table is a node of the tree. *)
Lemma findOrMakeFilterTable_located (root root' : Table value)
    (ft : FilterTable value) :
  findOrMakeFilterTable root = Ret (Some root', Some ft) →
  root' = plug (holders ft) (filterTable ft).
Proof.
  unfold findOrMakeFilterTable.
  destruct (findFilterTableFrom root []) as [[ft' |] | e]; simpl; congruence.
Qed.

(** C8.  Below any chain of pass-through nodes and joins entered on the
    right ([hs]), the search returns [(null, null)] on reaching an
    Aggregation, a VarRef or a ResultRef; throws on reaching a Sequence,
    a History, a Window or a TimeSeries; returns the tree and the filter
    node on reaching a Filter; and on reaching the invocation returns the
    tree in which [Filter(invocation, True)] stands where the invocation
    stood, paired with that new node: the new node is the root when the
    chain is empty, and otherwise the child of the last holder, its right
    child when that holder is a join. *)
Theorem findOrMakeFilterTable_spec (hs : list (Holder value)) :
  (∀ t s, findOrMakeFilterTable (plug hs (TAggregation t s)) = Ret (None, None))
  ∧ (∀ n s, findOrMakeFilterTable (plug hs (TVarRef n s)) = Ret (None, None))
  ∧ (∀ k s, findOrMakeFilterTable (plug hs (TResultRef k s)) = Ret (None, None))
  ∧ (∀ t s, findOrMakeFilterTable (plug hs (TSequence t s)) = Throw NotImplemented)
  ∧ (∀ t s, findOrMakeFilterTable (plug hs (THistory t s)) = Throw NotImplemented)
  ∧ (∀ s, findOrMakeFilterTable (plug hs (TWindow s)) = Throw NotImplemented)
  ∧ (∀ s, findOrMakeFilterTable (plug hs (TTimeSeries s)) = Throw NotImplemented)
  ∧ (∀ t f s,
       findOrMakeFilterTable (plug hs (TFilter t f s))
       = Ret (Some (plug hs (TFilter t f s)),
              Some {| holders := hs; filterTable := TFilter t f s |}))
  ∧ (∀ inv s,
       let newFilterTable := TFilter (TInvocation inv s) BTrue s in
       findOrMakeFilterTable (plug hs (TInvocation inv s))
       = Ret (Some (plug hs newFilterTable),
              Some {| holders := hs; filterTable := newFilterTable |}))
  ∧ (∀ node : Table value, plug [] node = node)
  ∧ (∀ hs' h (node : Table value),
       plug (hs' ++ [h]) node = plug hs' (setChild h node))
  ∧ (∀ lhs s (node : Table value),
       setChild (HJoin lhs s) node = TJoin lhs node s).
Proof.
  repeat split; intros; rewrite ?findOrMakeFilterTable_plug; simpl;
    rewrite ?rev_involutive; try reflexivity.
  induction hs' as [| h' hs' IH]; simpl; [reflexivity | by rewrite IH].
Qed.

Section QueryRefinementFacts.
Variable resolveProjection : list string → FunctionDef → res FunctionDef.

(** C1 (amended).  When the attachment search of the tree reaches an
    Aggregation, a VarRef or a ResultRef, queryRefinement does not return
    a rejection: it fails with a runtime error, whatever the new
    predicate, the strategy and the projection. *)
Theorem queryRefinement_no_attachment (hs : list (Holder value))
    (newFilter : bexpr) (refineFilter : bexpr → bexpr → option bexpr)
    (newProjection : option (list string)) :
  (∀ t s, queryRefinement resolveProjection (plug hs (TAggregation t s))
            newFilter refineFilter newProjection = Throw TypeError)
  ∧ (∀ n s, queryRefinement resolveProjection (plug hs (TVarRef n s))
              newFilter refineFilter newProjection = Throw TypeError)
  ∧ (∀ k s, queryRefinement resolveProjection (plug hs (TResultRef k s))
              newFilter refineFilter newProjection = Throw TypeError).
Proof.
  unfold queryRefinement.
  repeat split; intros; rewrite findOrMakeFilterTable_plug; reflexivity.
Qed.

(** On a tree whose search ends at a filter over the invocation, the
    rejection of the strategy is the rejection of queryRefinement. *)
Lemma queryRefinement_strategy_rejects (hs : list (Holder value))
    (inv : Invocation value) (s s' : FunctionDef) (ctxFilter newFilter : bexpr)
    (refineFilter : bexpr → bexpr → option bexpr)
    (newProjection : option (list string)) :
  refineFilter ctxFilter newFilter = None →
  queryRefinement resolveProjection
    (plug hs (TFilter (TInvocation inv s) ctxFilter s'))
    newFilter refineFilter newProjection
  = Ret None.
Proof.
  intros Hreject.
  unfold queryRefinement. rewrite findOrMakeFilterTable_plug. simpl.
  by rewrite Hreject.
Qed.

End QueryRefinementFacts.

End AttachmentFacts.

(** C1 as stated fails: on an aggregation over [restaurant()], whose
    attachment search ends at the Aggregation node, queryRefinement with
    the answerQuestion strategy throws and does not return [null]. *)
Lemma queryRefinement_no_attachment_counterexample :
  let schema := {| class_name := "com.yelp"; name := "restaurant" |} in
  let inv := {| channel := "restaurant"; in_params := []; inv_schema := schema |} in
  let tree : Table Value := TAggregation (TInvocation inv schema) schema in
  findOrMakeFilterTable tree = Ret (None, None)
  ∧ queryRefinement (fun _ s => Ret s) tree
      (BAtom "price_range" "==" (VString "cheap"))
      refineFilterToAnswerQuestion None
    = Throw TypeError
  ∧ queryRefinement (fun _ s => Ret s) tree
      (BAtom "price_range" "==" (VString "cheap"))
      refineFilterToAnswerQuestion None
    ≠ Ret None.
Proof. repeat split; discriminate. Qed.

(** ** Grounding checks *)

Section GroundingFacts.
Context {value : Type} `{ValueOps value} `{FilterOps value}.

Lemma arraySubset_spec (small big : list value) :
  arraySubset small big = true
  ↔ ∀ element, In element small →
      ∃ be, In be big ∧ value_equals be element = true.
Proof.
  unfold arraySubset. rewrite forallb_forall.
  split; intros Hall element Hin; specialize (Hall element Hin).
  - by apply existsb_exists in Hall.
  - by apply existsb_exists.
Qed.

Lemma isInfoPhraseCompatibleWithResult_spec (result : ResultItem value)
    (info : SlotBag value) :
  isInfoPhraseCompatibleWithResult result info = true
  ↔ ∀ pname infoValue, In (pname, infoValue) (bag_store info) →
      fieldGrounded result pname infoValue.
Proof.
  unfold isInfoPhraseCompatibleWithResult, fieldGrounded, valueGrounded.
  rewrite forallb_forall. split.
  - intros Hall pname infoValue Hin. specialize (Hall _ Hin). simpl in Hall.
    destruct (item_value result !! pname) as [resultValue |]; [| done].
    exists resultValue. split; [done |].
    destruct (array_elems resultValue), (array_elems infoValue); try done.
    by apply arraySubset_spec.
  - intros Hall [pname infoValue] Hin.
    destruct (Hall _ _ Hin) as (resultValue & -> & Hg).
    destruct (array_elems resultValue), (array_elems infoValue); try done.
    by apply arraySubset_spec.
Qed.

Lemma In_top3 {A} (x : A) (l : list A) :
  In x (take (3 `min` length l) l) ↔ ∃ i, i < 3 ∧ l !! i = Some x.
Proof.
  rewrite <- list_elem_of_In, elem_of_take. split.
  - intros (i & Hi & Hlt). exists i. split; [lia | done].
  - intros (i & Hlt & Hi). exists i. split; [done |].
    apply lookup_lt_Some in Hi. lia.
Qed.

(** C3 (amended).  The top-3 grounding check returns true if and only if
    at least one of the first three result rows, for every field of the
    bag, has that field and satisfies array-subset containment (both
    values array-typed) or equality with the bag's value for that field:
    one and the same row witnesses all the fields of the bag. *)
Theorem compatibleWithTop3_spec (results : list (ResultItem value))
    (info : SlotBag value) :
  compatibleWithTop3 results info = true
  ↔ ∃ i result, i < 3 ∧ results !! i = Some result
      ∧ ∀ pname infoValue, In (pname, infoValue) (bag_store info) →
          fieldGrounded result pname infoValue.
Proof.
  unfold compatibleWithTop3. rewrite existsb_exists. split.
  - intros (result & Hin & Hc). apply In_top3 in Hin as (i & Hlt & Hi).
    exists i, result. by rewrite <- isInfoPhraseCompatibleWithResult_spec.
  - intros (i & result & Hlt & Hi & Hall). exists result. split.
    + apply In_top3. eauto.
    + by apply isInfoPhraseCompatibleWithResult_spec.
Qed.

Section ContextFacts.
Context {HistoryItem : Type}.
Variable getActionInvocation : option HistoryItem → res (Invocation value).

Local Abbreviation ContextInfo := (ContextInfo value HistoryItem).
Local Abbreviation Recommendation := (Recommendation value HistoryItem).

(** C2 (amended).  When the active projection is set and the function
    identity of the slot bag is that of the context, the info-phrase
    validity check accepts, returning the bag, exactly when every field
    of the active projection is a field of the bag and the top-3
    grounding check holds; it returns null otherwise, and in particular
    rejects a bag that lacks a field of the projection. *)
Theorem checkInfoPhrase_projection (ctx : ContextInfo) (info : SlotBag value)
    (projection : list string) :
  resultInfo_projection ctx = Some projection →
  currentFunction ctx
  = Some (class_name (bag_schema info) ++ ":" ++ name (bag_schema info)) →
  (checkInfoPhrase ctx info = Ret (Some info)
   ↔ (∀ pname, In pname projection → bag_has info pname = true)
     ∧ compatibleWithTop3 (results ctx) info = true)
  ∧ (checkInfoPhrase ctx info = Ret (Some info)
     ∨ checkInfoPhrase ctx info = Ret None)
  ∧ (∀ pname, In pname projection → bag_has info pname = false →
       checkInfoPhrase ctx info = Ret None).
Proof.
  intros Hproj Hfun. unfold checkInfoPhrase.
  rewrite Hproj, Hfun, bool_decide_eq_true_2 by reflexivity. simpl.
  destruct (forallb (λ pname, bag_has info pname) projection) eqn:Enames; simpl.
  - rewrite forallb_forall in Enames.
    destruct (compatibleWithTop3 (results ctx) info) eqn:Etop.
    + split; [by split |]. split; [by left |].
      intros pname Hin Hhas. rewrite (Enames _ Hin) in Hhas. done.
    + split; [split; [done | by intros [_ ?]] |]. split; [by right | done].
  - split.
    + split; [done |]. intros [Hall _].
      apply not_true_iff_false in Enames. destruct Enames.
      by apply forallb_forall.
    + split; [by right | done].
Qed.

(** C10.  When the top result row has no [id], both recommendation makers
    return null; and a recommendation that either of them produces
    carries the top result of the context, which has an [id]. *)
Theorem recommendation_requires_id (ctx : ContextInfo) :
  (∀ top rest, results ctx = top :: rest → item_value top !! "id" = None →
     (∀ action, makeActionRecommendation ctx action = Ret None)
     ∧ (∀ name,
          makeRecommendation getActionInvocation ctx name = Ret None))
  ∧ (∀ action (r : Recommendation),
       makeActionRecommendation ctx action = Ret (Some r) →
       head (results ctx) = Some (topResult r)
       ∧ is_Some (item_value (topResult r) !! "id"))
  ∧ (∀ name (r : Recommendation),
       makeRecommendation getActionInvocation ctx name = Ret (Some r) →
       head (results ctx) = Some (topResult r)
       ∧ is_Some (item_value (topResult r) !! "id")).
Proof.
  unfold makeActionRecommendation, makeRecommendation.
  split; [| split].
  - intros top rest -> Hid. simpl. by rewrite Hid.
  - intros action r.
    destruct (results ctx) as [| top rest]; simpl; [done |].
    destruct (item_value top !! "id") as [id |] eqn:Hid; [| done].
    destruct (existsb _ _); [| done].
    intros [= <-]. simpl. by rewrite Hid.
  - intros nm r.
    destruct (results ctx) as [| top rest]; simpl; [done |].
    destruct (item_value top !! "id") as [id |] eqn:Hid; [| done].
    destruct (negb (value_equals id nm)); [done |].
    destruct (nextInfo ctx) as [[[|]] |]; simpl;
      try (intros [= <-]; simpl; by rewrite Hid).
    destruct (getActionInvocation (next ctx)); simpl; [| done].
    intros [= <-]. simpl. by rewrite Hid.
Qed.

End ContextFacts.

End GroundingFacts.

(** The hypotheses of C2 (amended) hold for the context of
    [com.yelp:restaurant] with the open question [price_range] and the
    bag that states [price_range = "cheap"], which is accepted. *)
Lemma checkInfoPhrase_projection_witness :
  let schema := {| class_name := "com.yelp"; name := "restaurant" |} in
  let ctx : ContextInfo Value unit :=
    {| currentFunction := Some "com.yelp:restaurant";
       results := [ {| item_value := {[ "price_range" := VString "cheap";
                                        "cuisine" := VString "italian" ]} |} ];
       resultInfo_projection := Some ["price_range"];
       nextInfo := None;
       next := None |} in
  let info := {| bag_schema := schema;
                 bag_store := [("price_range", VString "cheap")] |} in
  resultInfo_projection ctx = Some ["price_range"]
  ∧ currentFunction ctx
    = Some (class_name (bag_schema info) ++ ":" ++ name (bag_schema info))
  ∧ checkInfoPhrase ctx info = Ret (Some info).
Proof.
  intros schema ctx info.
  split; [reflexivity |]. split; [reflexivity |].
  destruct (checkInfoPhrase_projection ctx info ["price_range"] eq_refl eq_refl)
    as (Haccept & _).
  apply Haccept. split.
  - intros pname [<- | []]. vm_compute. reflexivity.
  - vm_compute. reflexivity.
Defined.

(** C2 as stated fails.  With the active projection [price_range], the
    bag that states [price_range = "cheap"] and [cuisine = "italian"]
    has the function identity of the context and is accepted, although
    its field [cuisine] is not a member of the projection: the check
    asks that the projected names be in the bag, not the converse. *)
Lemma checkInfoPhrase_projection_counterexample :
  let schema := {| class_name := "com.yelp"; name := "restaurant" |} in
  let ctx : ContextInfo Value unit :=
    {| currentFunction := Some "com.yelp:restaurant";
       results := [ {| item_value := {[ "price_range" := VString "cheap";
                                        "cuisine" := VString "italian" ]} |} ];
       resultInfo_projection := Some ["price_range"];
       nextInfo := None;
       next := None |} in
  let info := {| bag_schema := schema;
                 bag_store := [("price_range", VString "cheap");
                               ("cuisine", VString "italian")] |} in
  currentFunction ctx
  = Some (class_name (bag_schema info) ++ ":" ++ name (bag_schema info))
  ∧ resultInfo_projection ctx = Some ["price_range"]
  ∧ checkInfoPhrase ctx info = Ret (Some info)
  ∧ In "cuisine" (bag_keys info)
  ∧ ¬ In "cuisine" ["price_range"].
Proof.
  intros schema ctx info.
  split; [reflexivity |]. split; [reflexivity |].
  split; [vm_compute; reflexivity |].
  split; [right; left; reflexivity |].
  intros [Heq | []]. discriminate Heq.
Qed.

(** C3 as stated fails.  Of the two result rows, the first grounds
    [cuisine = "italian"] and the second grounds
    [price_range = "expensive"], so each field of the bag is witnessed by
    one of the first three rows; no single row grounds both, and the
    check returns false. *)
Lemma compatibleWithTop3_counterexample :
  let schema := {| class_name := "com.yelp"; name := "restaurant" |} in
  let results : list (ResultItem Value) :=
    [ {| item_value := {[ "cuisine" := VString "italian";
                          "price_range" := VString "cheap" ]} |};
      {| item_value := {[ "cuisine" := VString "chinese";
                          "price_range" := VString "expensive" ]} |} ] in
  let info := {| bag_schema := schema;
                 bag_store := [("cuisine", VString "italian");
                               ("price_range", VString "expensive")] |} in
  (∀ pname infoValue, In (pname, infoValue) (bag_store info) →
     ∃ i result, i < 3 ∧ results !! i = Some result
                 ∧ fieldGrounded result pname infoValue)
  ∧ compatibleWithTop3 results info = false.
Proof.
  intros schema results info. split; [| vm_compute; reflexivity].
  intros pname infoValue [[= <- <-] | [[= <- <-] | []]].
  - exists 0, {| item_value := {[ "cuisine" := VString "italian";
                                  "price_range" := VString "cheap" ]} |}.
    split; [lia |]. split; [reflexivity |].
    exists (VString "italian"). split; vm_compute; reflexivity.
  - exists 1, {| item_value := {[ "cuisine" := VString "chinese";
                                  "price_range" := VString "expensive" ]} |}.
    split; [lia |]. split; [reflexivity |].
    exists (VString "expensive"). split; vm_compute; reflexivity.
Qed.

(** The hypotheses of C10 hold for a context whose top result has a
    [price_range] and no [id]: both makers return null on it; and on the
    context whose top result has the [id] R1, the recommendation made
    for R1 carries that top result. *)
Lemma recommendation_requires_id_witness :
  let getAction : option unit → res (Invocation Value) :=
    fun _ => Throw TypeError in
  let action : Invocation Value :=
    {| channel := "book";
       in_params := [("restaurant", VEntity "R1" "restaurant")];
       inv_schema := {| class_name := "com.yelp"; name := "book" |} |} in
  let idless : ResultItem Value :=
    {| item_value := {[ "price_range" := VString "cheap" ]} |} in
  let withId : ResultItem Value :=
    {| item_value := {[ "id" := VEntity "R1" "restaurant" ]} |} in
  let mkctx (top : ResultItem Value) : ContextInfo Value unit :=
    {| currentFunction := Some "com.yelp:restaurant";
       results := [top];
       resultInfo_projection := None;
       nextInfo := None;
       next := None |} in
  (results (mkctx idless) = [idless] ∧ item_value idless !! "id" = None
   ∧ makeActionRecommendation (mkctx idless) action = Ret None
   ∧ makeRecommendation getAction (mkctx idless) (VEntity "R1" "restaurant")
     = Ret None)
  ∧ (∃ r, makeRecommendation getAction (mkctx withId) (VEntity "R1" "restaurant")
          = Ret (Some r)
          ∧ head (results (mkctx withId)) = Some (topResult r)
          ∧ is_Some (item_value (topResult r) !! "id")).
Proof.
  intros getAction action idless withId mkctx. split.
  - destruct (recommendation_requires_id getAction (mkctx idless))
      as (Hnull & _).
    assert (item_value idless !! "id" = None) as Hid by (vm_compute; reflexivity).
    destruct (Hnull idless [] eq_refl Hid) as (Haction & Hname).
    split; [reflexivity |]. split; [exact Hid |].
    split; [apply Haction | apply Hname].
  - destruct (recommendation_requires_id getAction (mkctx withId))
      as (_ & _ & Hmade).
    eexists. split; [vm_compute; reflexivity |].
    apply (Hmade (VEntity "R1" "restaurant")). vm_compute. reflexivity.
Defined.

(** ** The changeFilter and answerQuestionOrChangeFilter strategies *)

Section SlotFacts.
Context {value : Type} `{ValueOps value} `{FilterOps value}.

Local Abbreviation bexpr := (BooleanExpression value).

Lemma slots_get_In (key : string) (slots : list (string * bexpr)) (c : bexpr) :
  slots_get key slots = Some c → In (key, c) slots.
Proof.
  induction slots as [| [k c0] rest IH]; simpl; [done |].
  destruct (k =? key) eqn:E.
  - apply String.eqb_eq in E. subst k. intros [= ->]. by left.
  - intros Hget. right. by apply IH.
Qed.

Lemma filterUsesParam_spec (f : bexpr) (pname : string) :
  filterUsesParam f pname = true ↔ pname ∈ getParamsInFilter f.
Proof.
  induction f as [| | n | n op v | e IH | ops IH | ops IH | ch ps g IH | l op r]
    using BooleanExpression_nested_ind; simpl;
    try (split; [done | set_solver]).
  - rewrite String.eqb_eq. set_solver.
  - rewrite String.eqb_eq. set_solver.
  - exact IH.
  - induction IH as [| x l Hx _ IHl]; simpl; [split; [done | set_solver] |].
    rewrite orb_true_iff, Hx, IHl. set_solver.
  - induction IH as [| x l Hx _ IHl]; simpl; [split; [done | set_solver] |].
    rewrite orb_true_iff, Hx, IHl. set_solver.
Qed.

(** With the helper [C.filterUsesParam] as the specification describes
    it, the visitor of changeFilter keeps the clauses no field of which
    appears in the new predicate. *)
Lemma clauseIsGood_spec (new clause : bexpr) :
  clauseIsGood new clause = keptByChangeFilter new clause.
Proof.
  unfold keptByChangeFilter.
  induction clause
    as [| | n | n op v | e IH | ops IH | ops IH | ch ps g IH | l op r]
    using BooleanExpression_nested_ind; simpl;
    try (rewrite bool_decide_eq_true_2 by set_solver; reflexivity).
  - apply eq_iff_eq_true.
    rewrite negb_true_iff, andb_true_r, bool_decide_eq_true,
      <- not_true_iff_false, filterUsesParam_spec. set_solver.
  - apply eq_iff_eq_true.
    rewrite negb_true_iff, andb_true_r, bool_decide_eq_true,
      <- not_true_iff_false, filterUsesParam_spec. set_solver.
  - exact IH.
  - induction IH as [| x l Hx _ IHl]; simpl.
    + rewrite bool_decide_eq_true_2 by set_solver. reflexivity.
    + rewrite Hx, IHl. apply eq_iff_eq_true.
      rewrite negb_orb, !andb_true_iff, !bool_decide_eq_true. set_solver.
  - induction IH as [| x l Hx _ IHl]; simpl.
    + rewrite bool_decide_eq_true_2 by set_solver. reflexivity.
    + rewrite Hx, IHl. apply eq_iff_eq_true.
      rewrite negb_orb, !andb_true_iff, !bool_decide_eq_true. set_solver.
Qed.

Lemma forallb_elements (P : string → bool) (X : gset string) :
  forallb P (elements X) = true ↔ ∀ p, p ∈ X → P p = true.
Proof.
  rewrite List.forallb_forall. split; intros Hall p Hp; apply Hall.
  - by apply list_elem_of_In, elem_of_elements.
  - by apply elem_of_elements, list_elem_of_In.
Qed.

(** The visitor of changeFilter keeps a clause exactly when the helper
    [C.filterUsesParam] finds none of its fields used by the new
    predicate and the clause contains no External sub-predicate,
    whatever the helper computes. *)
Lemma clauseIsGood_unused (new clause : bexpr) :
  clauseIsGood new clause = keptUnusedBy new clause.
Proof.
  unfold keptUnusedBy.
  induction clause
    as [| | n | n op v | e IH | ops IH | ops IH | ch ps g IH | l op r]
    using BooleanExpression_nested_ind; simpl;
    try reflexivity; try exact IH.
  - rewrite elements_singleton. simpl. by rewrite andb_true_r.
  - rewrite elements_singleton. simpl. by rewrite andb_true_r.
  - induction IH as [| x l Hx _ IHl]; simpl; [reflexivity |].
    rewrite Hx, IHl. apply eq_iff_eq_true.
    rewrite negb_orb, !andb_true_iff, !forallb_elements. set_solver.
  - induction IH as [| x l Hx _ IHl]; simpl; [reflexivity |].
    rewrite Hx, IHl. apply eq_iff_eq_true.
    rewrite negb_orb, !andb_true_iff, !forallb_elements. set_solver.
Qed.

(** C6 (amended).  Fields are read off the top-level slots: [ctxSlots]
    and [refinedSlots] map a field to the top-level Atom or DontCare
    clause on it of the simplified old and new predicates; negated and
    nested clauses are not read.  When no field of these slots is named
    as a member of [Object.prototype], the changeFilter strategy rejects
    whenever a field of [refinedSlots] is absent from [ctxSlots], rejects
    whenever a field common to both has equal clauses (same operator and
    value) in both, rejects in no other case, and on success returns the
    simplification of the conjunction of every top-level clause of the
    simplified old predicate of which [C.filterUsesParam] finds no field
    used by the new predicate and which contains no External
    sub-predicate, followed by the simplified new predicate. *)
Theorem refineFilterToChangeFilter_spec (old new : bexpr) :
  let ctxSlots := filterToSlots (optimize old) in
  let refinedSlots := filterToSlots (optimize new) in
  plainSlotKeys ctxSlots = true →
  plainSlotKeys refinedSlots = true →
  (∀ key, is_Some (slots_get key refinedSlots) → slots_get key ctxSlots = None →
     refineFilterToChangeFilter old new = None)
  ∧ (∀ key ctxClause refinedClause,
       slots_get key ctxSlots = Some ctxClause →
       slots_get key refinedSlots = Some refinedClause →
       filter_equals refinedClause ctxClause = true →
       refineFilterToChangeFilter old new = None)
  ∧ (refineFilterToChangeFilter old new = None →
       (∃ key, is_Some (slots_get key refinedSlots) ∧ slots_get key ctxSlots = None)
       ∨ (∃ key ctxClause refinedClause,
            In (key, ctxClause) ctxSlots
            ∧ slots_get key refinedSlots = Some refinedClause
            ∧ filter_equals refinedClause ctxClause = true))
  ∧ (∀ result, refineFilterToChangeFilter old new = Some result →
       result
       = optimize
           (BAnd (List.filter (keptUnusedBy (optimize new))
                              (operandsOf (optimize old))
                  ++ [optimize new]))).
Proof.
  intros ctxSlots refinedSlots _ _. unfold refineFilterToChangeFilter.
  fold ctxSlots refinedSlots.
  split; [| split; [| split]].
  - intros key [r Hr] Hctx.
    destruct (existsb _ ctxSlots); [reflexivity |].
    assert (existsb (λ '(key, _), negb (bool_decide (is_Some (slots_get key ctxSlots))))
                    refinedSlots = true) as ->; [| reflexivity].
    apply existsb_exists. exists (key, r). split; [by apply slots_get_In |].
    rewrite Hctx. apply negb_true_iff, bool_decide_eq_false. by intros [? ?].
  - intros key c r Hc Hr Heq.
    assert (existsb (λ '(key, ctxClause),
                       match slots_get key refinedSlots with
                       | Some refinedClause => filter_equals refinedClause ctxClause
                       | None => false
                       end) ctxSlots = true) as ->; [| reflexivity].
    apply existsb_exists. exists (key, c). split; [by apply slots_get_In |].
    by rewrite Hr.
  - destruct (existsb _ ctxSlots) eqn:E1.
    + intros _. right. apply existsb_exists in E1 as ([key c] & Hin & Hc).
      destruct (slots_get key refinedSlots) as [r |] eqn:Hr; [| done].
      by exists key, c, r.
    + destruct (existsb _ refinedSlots) eqn:E2; [| done].
      intros _. left. apply existsb_exists in E2 as ([key r] & Hin & Hc).
      exists key. apply negb_true_iff, bool_decide_eq_false in Hc.
      split.
      * clear -Hin. induction refinedSlots as [| [k c0] rest IH]; [done |].
        simpl. destruct (k =? key) eqn:E; [by eexists |].
        destruct Hin as [[= -> ->] | Hin]; [by rewrite String.eqb_refl in E |].
        by apply IH.
      * destruct (slots_get key ctxSlots); [| done]. destruct Hc. by eexists.
  - intros result.
    destruct (existsb _ ctxSlots); [done |].
    destruct (existsb _ refinedSlots); [done |].
    intros [= <-]. do 3 f_equal.
    apply filter_ext. intros clause. apply clauseIsGood_unused.
Qed.

End SlotFacts.

(** The hypotheses of C6 (amended) hold on requests about restaurants,
    none of whose fields is named as a member of [Object.prototype]: a
    request on the new field [neighborhood] is rejected, a request that
    repeats [rating >= 4] is rejected, and the request [rating >= 3]
    replaces the old clause on [rating] and keeps the clause on
    [cuisine]. *)
Lemma refineFilterToChangeFilter_spec_witness :
  let cuisine := BAtom "cuisine" "==" (VString "italian") in
  let rating4 := BAtom "rating" ">=" (VNumber 4) in
  let rating3 := BAtom "rating" ">=" (VNumber 3) in
  let downtown := BAtom "neighborhood" "==" (VString "downtown") in
  plainSlotKeys (filterToSlots (optimize (BAnd [cuisine; rating4]))) = true
  ∧ plainSlotKeys (filterToSlots (optimize rating4)) = true
  ∧ plainSlotKeys (filterToSlots (optimize rating3)) = true
  ∧ plainSlotKeys (filterToSlots (optimize downtown)) = true
  ∧ refineFilterToChangeFilter rating4 downtown = None
  ∧ refineFilterToChangeFilter (BAnd [cuisine; rating4]) rating4 = None
  ∧ refineFilterToChangeFilter (BAnd [cuisine; rating4]) rating3
    = Some (BAnd [cuisine; rating3])
  ∧ BAnd [cuisine; rating3]
    = optimize (BAnd (List.filter (keptUnusedBy (optimize rating3))
                                  (operandsOf (optimize (BAnd [cuisine; rating4])))
                      ++ [optimize rating3])).
Proof.
  intros cuisine rating4 rating3 downtown.
  assert (plainSlotKeys (filterToSlots (optimize (BAnd [cuisine; rating4]))) = true)
    as Hboth by (vm_compute; reflexivity).
  assert (plainSlotKeys (filterToSlots (optimize rating4)) = true)
    as Hrating4 by (vm_compute; reflexivity).
  assert (plainSlotKeys (filterToSlots (optimize rating3)) = true)
    as Hrating3 by (vm_compute; reflexivity).
  assert (plainSlotKeys (filterToSlots (optimize downtown)) = true)
    as Hdowntown by (vm_compute; reflexivity).
  do 4 (split; [assumption |]).
  split; [| split; [| split]].
  - pose proof (refineFilterToChangeFilter_spec rating4 downtown) as Hs.
    cbv zeta in Hs. destruct (Hs Hrating4 Hdowntown) as (Hnew & _).
    apply (Hnew "neighborhood"); [by eexists | reflexivity].
  - pose proof (refineFilterToChangeFilter_spec (BAnd [cuisine; rating4]) rating4)
      as Hs.
    cbv zeta in Hs. destruct (Hs Hboth Hrating4) as (_ & Hsame & _).
    apply (Hsame "rating" rating4 rating4); reflexivity.
  - reflexivity.
  - pose proof (refineFilterToChangeFilter_spec (BAnd [cuisine; rating4]) rating3)
      as Hs.
    cbv zeta in Hs. destruct (Hs Hboth Hrating3) as (_ & _ & _ & Hok).
    apply Hok. reflexivity.
Defined.

Section CheckCtxSlotsFacts.
Context {value : Type} `{ValueOps value} `{FilterOps value}.

Local Abbreviation bexpr := (BooleanExpression value).

Variables refinedSlots negatedRefinedSlots : list (string * bexpr).

Local Abbreviation check := (checkCtxSlots refinedSlots negatedRefinedSlots).

Lemma checkCtxSlots_negated (ctxSlots : list (string * bexpr)) key ctxClause :
  In (key, ctxClause) ctxSlots →
  is_Some (slots_get key negatedRefinedSlots) →
  ∀ changedParam, check ctxSlots changedParam = None.
Proof.
  intros Hin Hneg.
  induction ctxSlots as [| [k c] rest IH]; [done |]. intros changedParam. simpl.
  destruct Hin as [[= -> ->] | Hin].
  - by rewrite bool_decide_eq_true_2.
  - repeat case_match; try done; by apply IH.
Qed.

Lemma checkCtxSlots_dontcare (ctxSlots : list (string * bexpr)) key ctxClause :
  In (key, ctxClause) ctxSlots →
  is_Some (slots_get key refinedSlots) →
  isDontCare ctxClause = true →
  ∀ changedParam, check ctxSlots changedParam = None.
Proof.
  intros Hin [r Hr] Hdc.
  induction ctxSlots as [| [k c] rest IH]; [done |]. intros changedParam. simpl.
  destruct Hin as [[= -> ->] | Hin].
  - rewrite Hr, Hdc. by case_match.
  - repeat case_match; try done; by apply IH.
Qed.

Lemma checkCtxSlots_equal (ctxSlots : list (string * bexpr)) key ctxClause
    refinedClause :
  In (key, ctxClause) ctxSlots →
  slots_get key refinedSlots = Some refinedClause →
  filter_equals refinedClause ctxClause = true →
  ∀ changedParam, check ctxSlots changedParam = None.
Proof.
  intros Hin Hr Heq.
  induction ctxSlots as [| [k c] rest IH]; [done |]. intros changedParam. simpl.
  destruct Hin as [[= -> ->] | Hin].
  - rewrite Hr, Heq. by repeat case_match.
  - repeat case_match; try done; by apply IH.
Qed.

(** Once a parameter has changed, any further slot of the context that
    the refinement mentions is a rejection. *)
Lemma checkCtxSlots_changed (ctxSlots : list (string * bexpr)) key ctxClause :
  In (key, ctxClause) ctxSlots →
  is_Some (slots_get key refinedSlots) →
  ∀ changedParam, is_Some changedParam → check ctxSlots changedParam = None.
Proof.
  intros Hin [r Hr].
  induction ctxSlots as [| [k c] rest IH]; [done |].
  intros changedParam Hchanged. simpl.
  destruct Hin as [[= -> ->] | Hin].
  - rewrite Hr. rewrite (bool_decide_eq_true_2 _ Hchanged). by repeat case_match.
  - repeat case_match; try done; by apply IH.
Qed.

Lemma checkCtxSlots_second (ctxSlots : list (string * bexpr)) key1 key2 c1 c2 :
  key1 ≠ key2 →
  In (key1, c1) ctxSlots → In (key2, c2) ctxSlots →
  is_Some (slots_get key1 refinedSlots) →
  is_Some (slots_get key2 refinedSlots) →
  ∀ changedParam, check ctxSlots changedParam = None.
Proof.
  intros Hne Hin1 Hin2 Hr1 Hr2.
  induction ctxSlots as [| [k c] rest IH]; [done |]. intros changedParam. simpl.
  destruct Hin1 as [[= -> ->] | Hin1], Hin2 as [[= -> ->] | Hin2]; try done.
  - destruct Hr1 as [r1 Hr1]. rewrite Hr1.
    repeat case_match; try done.
    by apply (checkCtxSlots_changed rest key2 c2).
  - destruct Hr2 as [r2 Hr2]. rewrite Hr2.
    repeat case_match; try done.
    by apply (checkCtxSlots_changed rest key1 c1).
  - repeat case_match; try done; by apply IH.
Qed.

End CheckCtxSlotsFacts.

Section AnswerQuestionOrChangeFilterFacts.
Context {value : Type} `{ValueOps value} `{FilterOps value}.

Local Abbreviation bexpr := (BooleanExpression value).


End AnswerQuestionOrChangeFilterFacts.


(** C6 as stated fails.  The request [!(price_range == "cheap")]
    constrains the field [price_range], absent from the old predicate
    [cuisine == "italian"], and is not rejected: a negated clause is no
    slot.  And the request [rating <= 4] on the old predicate
    [rating >= 4] has the same field with the identical value 4, and is
    not rejected: the clauses differ by their operator. *)
Lemma refineFilterToChangeFilter_counterexample :
  let italian := BAtom "cuisine" "==" (VString "italian") in
  let notCheap := BNot (BAtom "price_range" "==" (VString "cheap")) in
  let atLeast4 := BAtom "rating" ">=" (VNumber 4) in
  let atMost4 := BAtom "rating" "<=" (VNumber 4) in
  (FieldOf "price_range" notCheap
   ∧ ¬ FieldOf "price_range" italian
   ∧ refineFilterToChangeFilter italian notCheap
     = Some (BAnd [italian; notCheap]))
  ∧ (FieldOf "rating" atLeast4
     ∧ FieldOf "rating" atMost4
     ∧ refineFilterToChangeFilter atLeast4 atMost4 = Some atMost4).
Proof.
  intros italian notCheap atLeast4 atMost4. split.
  - split; [repeat constructor |]. split; [| reflexivity].
    inversion 1.
  - split; [constructor |]. split; [constructor | reflexivity].
Qed.


(** ** The scenarios of the specification, run on the embedding *)

(** Scenario 1: [cuisine == "italian"] refined by the answer
    [price_range == "cheap"]. *)
Example scenario_answer_question :
  refineFilterToAnswerQuestion
    (BAtom "cuisine" "==" (VString "italian"))
    (BAtom "price_range" "==" (VString "cheap"))
  = Some (BAnd [BAtom "cuisine" "==" (VString "italian");
                BAtom "price_range" "==" (VString "cheap")]).
Proof. vm_compute. reflexivity. Qed.

(** Scenario 2: the answer is about [cuisine], already constrained. *)
Example scenario_field_overlap :
  refineFilterToAnswerQuestion
    (BAtom "cuisine" "==" (VString "italian"))
    (BAtom "cuisine" "==" (VString "chinese"))
  = None.
Proof. vm_compute. reflexivity. Qed.

(** Scenario 3: [rating >= 4] changed to [rating >= 3]. *)
Example scenario_change_filter :
  refineFilterToChangeFilter
    (BAtom "rating" ">=" (VNumber 4)) (BAtom "rating" ">=" (VNumber 3))
  = Some (BAtom "rating" ">=" (VNumber 3)).
Proof. reflexivity. Qed.

(** A reply that changes one field and drops the chosen restaurant. *)
Example scenario_change_of_mind :
  refineFilterToAnswerQuestionOrChangeFilter
    (BAnd [BAtom "cuisine" "==" (VString "italian");
           BAtom "id" "==" (VEntity "R1" "restaurant")])
    (BAtom "cuisine" "==" (VString "chinese"))
  = Some (BAtom "cuisine" "==" (VString "chinese")).
Proof. reflexivity. Qed.

(** The query refinement of scenario 1 on [restaurant()] under a
    projection on [price_range]: the filter is made up below the
    projection and the projection, answered, is dropped. *)
Example scenario_query_refinement :
  let schema := {| class_name := "com.yelp"; name := "restaurant" |} in
  let inv : Invocation Value :=
    {| channel := "restaurant"; in_params := []; inv_schema := schema |} in
  queryRefinement (fun _ s => Ret s)
    (TProjection (TInvocation inv schema) ["price_range"] schema)
    (BAtom "price_range" "==" (VString "cheap"))
    refineFilterToAnswerQuestion None
  = Ret (Some (TFilter (TInvocation inv schema)
                       (BAtom "price_range" "==" (VString "cheap")) schema)).
Proof. vm_compute. reflexivity. Qed.

(** * Further properties *)

(** ** Identity neutralization, continued *)

Section NeutralizeMore.
Context {value : Type} `{ValueOps value}.

Local Abbreviation bexpr := (BooleanExpression value).

Lemma neutralizeIDFilter_no_id_equality (f : bexpr) :
  hasIdEquality (neutralizeIDFilter f) = false.
Proof.
  induction f as [| | n | n op v | e IH | ops IH | ops IH | ch ps g IH | l op r]
    using BooleanExpression_nested_ind; simpl; try reflexivity.
  - destruct ((n =? "id") && (op =? "==")) eqn:E; simpl; [reflexivity | exact E].
  - exact IH.
  - induction IH as [| x l Hx _ IHl]; simpl; [reflexivity | by rewrite Hx, IHl].
  - induction IH as [| x l Hx _ IHl]; simpl; [reflexivity | by rewrite Hx, IHl].
Qed.

Lemma neutralizeIDFilter_fixed (f : bexpr) :
  hasIdEquality f = false → neutralizeIDFilter f = f.
Proof.
  induction f as [| | n | n op v | e IH | ops IH | ops IH | ch ps g IH | l op r]
    using BooleanExpression_nested_ind; simpl; try reflexivity.
  - by intros ->.
  - intros Hno. by rewrite IH.
  - intros Hno. f_equal.
    induction IH as [| x l Hx _ IHl]; simpl in *; [reflexivity |].
    apply orb_false_iff in Hno as [Hx' Hl']. by rewrite Hx, IHl.
  - intros Hno. f_equal.
    induction IH as [| x l Hx _ IHl]; simpl in *; [reflexivity |].
    apply orb_false_iff in Hno as [Hx' Hl']. by rewrite Hx, IHl.
Qed.

(** X1.  The neutralized predicate holds no atom [id == _] outside
    external sub-queries, and neutralization changes a predicate exactly
    when the predicate holds such an atom. *)
Theorem neutralizeIDFilter_removes_id_equalities (f : bexpr) :
  hasIdEquality (neutralizeIDFilter f) = false
  ∧ (neutralizeIDFilter f = f ↔ hasIdEquality f = false).
Proof.
  split; [apply neutralizeIDFilter_no_id_equality |].
  split; [| apply neutralizeIDFilter_fixed].
  intros Heq. rewrite <- Heq. apply neutralizeIDFilter_no_id_equality.
Qed.

End NeutralizeMore.

(** ** Slot objects *)

Section SlotObjectFacts.
Context {value : Type} `{ValueOps value} `{FilterOps value}.

Local Abbreviation bexpr := (BooleanExpression value).

Lemma slots_get_set_eq (key : string) (clause : bexpr)
    (slots : list (string * bexpr)) :
  slots_get key (slots_set key clause slots) = Some clause.
Proof.
  induction slots as [| [k c] rest IH]; simpl.
  - by rewrite String.eqb_refl.
  - destruct (k =? key) eqn:E; simpl; rewrite E; [reflexivity | exact IH].
Qed.

Lemma slots_get_set_ne (key key' : string) (clause : bexpr)
    (slots : list (string * bexpr)) :
  key ≠ key' →
  slots_get key' (slots_set key clause slots) = slots_get key' slots.
Proof.
  intros Hne. induction slots as [| [k c] rest IH]; simpl.
  - by rewrite (proj2 (String.eqb_neq _ _) Hne).
  - destruct (k =? key) eqn:E; simpl.
    + apply String.eqb_eq in E. subst k.
      by rewrite (proj2 (String.eqb_neq _ _) Hne).
    + by rewrite IH.
Qed.

Lemma slots_set_keys (key key' : string) (clause : bexpr)
    (slots : list (string * bexpr)) :
  In key' (map fst (slots_set key clause slots))
  ↔ key' = key ∨ In key' (map fst slots).
Proof.
  induction slots as [| [k c] rest IH]; simpl; [naive_solver |].
  destruct (k =? key) eqn:E; simpl.
  - apply String.eqb_eq in E. subst k. naive_solver.
  - rewrite IH. naive_solver.
Qed.

Lemma slots_set_NoDup (key : string) (clause : bexpr)
    (slots : list (string * bexpr)) :
  List.NoDup (map fst slots) → List.NoDup (map fst (slots_set key clause slots)).
Proof.
  induction slots as [| [k c] rest IH]; simpl; intros Hnd.
  - constructor; [by intros [] | constructor].
  - inversion Hnd as [| ? ? Hnotin Hrest]; subst.
    destruct (k =? key) eqn:E; simpl; [by constructor |].
    constructor; [| by apply IH].
    rewrite slots_set_keys. intros [-> | Hin]; [| done].
    by rewrite String.eqb_refl in E.
Qed.


Section Collect.
Variable nameOf : bexpr → option string.

Lemma collectSlots_NoDup (operands : list bexpr) (slots : list (string * bexpr)) :
  List.NoDup (map fst slots) →
  List.NoDup (map fst (collectSlots nameOf operands slots)).
Proof.
  revert slots. induction operands as [| a l IH]; intros slots Hnd; [done |].
  simpl. apply IH. destruct (nameOf a); [by apply slots_set_NoDup | done].
Qed.


Lemma find_snoc {A} (p : A → bool) (l : list A) (a : A) :
  List.find p (l ++ [a])
  = match List.find p l with
    | Some x => Some x
    | None => if p a then Some a else None
    end.
Proof.
  induction l as [| x l IH]; simpl; [reflexivity |].
  destruct (p x); [reflexivity | exact IH].
Qed.

Lemma collectSlots_get (operands : list bexpr)
    (slots : list (string * bexpr)) key :
  slots_get key (collectSlots nameOf operands slots)
  = match List.find (fun c => bool_decide (nameOf c = Some key)) (rev operands) with
    | Some clause => Some clause
    | None => slots_get key slots
    end.
Proof.
  revert slots. induction operands as [| a l IH]; intros slots; [reflexivity |].
  simpl. rewrite IH, find_snoc.
  destruct (List.find _ (rev l)); [reflexivity |].
  destruct (nameOf a) as [n |] eqn:En.
  - destruct (decide (n = key)) as [-> | Hne].
    + rewrite bool_decide_eq_true_2 by done. apply slots_get_set_eq.
    + rewrite bool_decide_eq_false_2 by congruence. by apply slots_get_set_ne.
  - by rewrite bool_decide_eq_false_2.
Qed.

End Collect.

Lemma filterToSlots_collect (f : bexpr) :
  filterToSlots f = collectSlots slotName (operandsOf (optimize f)) [].
Proof.
  unfold filterToSlots, collectSlots. generalize (@nil (string * bexpr)).
  induction (operandsOf (optimize f)) as [| a l IH]; intros acc; [reflexivity |].
  simpl. rewrite IH. by destruct a.
Qed.

Lemma filterToNegatedSlots_collect (f : bexpr) :
  filterToNegatedSlots f
  = collectSlots negatedSlotName (operandsOf (optimize f)) [].
Proof.
  unfold filterToNegatedSlots, collectSlots. generalize (@nil (string * bexpr)).
  induction (operandsOf (optimize f)) as [| a l IH]; intros acc; [reflexivity |].
  simpl. rewrite IH. destruct a as [| | | | e | | | |]; try reflexivity.
  by destruct e.
Qed.


(** X3.  When neither the field looked up nor a field recorded in the
    slot objects is named as a member of [Object.prototype], the clause
    that the slot object of a predicate holds for the field is the last
    top-level clause on that field of the simplified predicate, and the
    field is absent when there is none: a later clause on a field
    overwrites an earlier one. *)
Theorem slots_lookup_last (f : bexpr) (key : string) :
  plainFieldName key = true →
  plainSlotKeys (filterToSlots f) = true →
  plainSlotKeys (filterToNegatedSlots f) = true →
  slots_get key (filterToSlots f)
  = List.find (fun c => bool_decide (slotName c = Some key))
              (rev (operandsOf (optimize f)))
  ∧ slots_get key (filterToNegatedSlots f)
    = List.find (fun c => bool_decide (negatedSlotName c = Some key))
                (rev (operandsOf (optimize f))).
Proof.
  intros _ _ _.
  rewrite filterToSlots_collect, filterToNegatedSlots_collect, !collectSlots_get.
  split; by destruct (List.find _ _).
Qed.

End SlotObjectFacts.

(** The hypotheses of X3 hold for the field [cuisine] of the predicate
    [cuisine == "italian" && rating >= 4 && cuisine == "chinese"], whose
    slot holds the later clause. *)
Lemma slots_lookup_last_witness :
  let italian := BAtom "cuisine" "==" (VString "italian") in
  let rating4 := BAtom "rating" ">=" (VNumber 4) in
  let chinese := BAtom "cuisine" "==" (VString "chinese") in
  let f := BAnd [italian; rating4; chinese] in
  plainFieldName "cuisine" = true
  ∧ plainSlotKeys (filterToSlots f) = true
  ∧ plainSlotKeys (filterToNegatedSlots f) = true
  ∧ slots_get "cuisine" (filterToSlots f) = Some chinese
  ∧ slots_get "cuisine" (filterToNegatedSlots f) = None.
Proof.
  intros italian rating4 chinese f.
  assert (plainFieldName "cuisine" = true) as Hkey by (vm_compute; reflexivity).
  assert (plainSlotKeys (filterToSlots f) = true)
    as Hslots by (vm_compute; reflexivity).
  assert (plainSlotKeys (filterToNegatedSlots f) = true)
    as Hnegated by (vm_compute; reflexivity).
  do 3 (split; [assumption |]).
  destruct (slots_lookup_last f "cuisine" Hkey Hslots Hnegated) as (Hpos & Hneg).
  split; [rewrite Hpos | rewrite Hneg]; reflexivity.
Defined.

Section AnswerQuestionMore.
Context {value : Type} `{ValueOps value} `{FilterOps value}.

Local Abbreviation bexpr := (BooleanExpression value).

(** X4.  The answerQuestion strategy rejects a pair of predicates exactly
    when it rejects the swapped pair. *)
Theorem refineFilterToAnswerQuestion_rejection_symmetric (old new : bexpr) :
  refineFilterToAnswerQuestion old new = None
  ↔ refineFilterToAnswerQuestion new old = None.
Proof.
  unfold refineFilterToAnswerQuestion.
  destruct (setsIntersect (getParamsInFilter old) _) eqn:E1,
           (setsIntersect (getParamsInFilter new) _) eqn:E2; try done.
  - apply setsIntersect_true in E1. apply setsIntersect_false in E2. set_solver.
  - apply setsIntersect_true in E2. apply setsIntersect_false in E1. set_solver.
Qed.

End AnswerQuestionMore.

(** ** The strategies, continued *)

Section StrategiesMore.
Context {value : Type} `{ValueOps value} `{FilterOps value}.

Local Abbreviation bexpr := (BooleanExpression value).

Lemma slots_get_of_In (key : string) (clause : bexpr)
    (slots : list (string * bexpr)) :
  List.NoDup (map fst slots) → In (key, clause) slots →
  slots_get key slots = Some clause.
Proof.
  induction slots as [| [k c] rest IH]; simpl; [done |].
  intros Hnd [[= -> ->] | Hin].
  - by rewrite String.eqb_refl.
  - inversion Hnd as [| ? ? Hnotin Hrest]; subst.
    destruct (k =? key) eqn:E; [| by apply IH].
    apply String.eqb_eq in E. subst k. destruct Hnotin.
    apply in_map_iff. by exists (key, clause).
Qed.

(** The ways in which the loop over the context slots rejects. *)
Lemma checkCtxSlots_None_inv (refinedSlots negatedRefinedSlots : list (string * bexpr))
    (ctxSlots : list (string * bexpr)) (changedParam : option string) :
  List.NoDup (map fst ctxSlots) →
  checkCtxSlots refinedSlots negatedRefinedSlots ctxSlots changedParam = None →
  (∃ k c, In (k, c) ctxSlots ∧ is_Some (slots_get k negatedRefinedSlots))
  ∨ (∃ k c, In (k, c) ctxSlots ∧ is_Some (slots_get k refinedSlots)
            ∧ isDontCare c = true)
  ∨ (∃ k c r, In (k, c) ctxSlots ∧ slots_get k refinedSlots = Some r
              ∧ filter_equals r c = true)
  ∨ (is_Some changedParam
     ∧ ∃ k c, In (k, c) ctxSlots ∧ is_Some (slots_get k refinedSlots))
  ∨ (∃ k1 c1 k2 c2, k1 ≠ k2 ∧ In (k1, c1) ctxSlots ∧ In (k2, c2) ctxSlots
                    ∧ is_Some (slots_get k1 refinedSlots)
                    ∧ is_Some (slots_get k2 refinedSlots)).
Proof.
  revert changedParam.
  induction ctxSlots as [| [k c] rest IH]; intros changedParam Hnd; [done |].
  inversion Hnd as [| ? ? Hnotin Hrest]; subst. simpl.
  assert (∀ cp, checkCtxSlots refinedSlots negatedRefinedSlots rest cp = None →
            (∃ k0 c0, In (k0, c0) ((k, c) :: rest)
                      ∧ is_Some (slots_get k0 negatedRefinedSlots))
            ∨ (∃ k0 c0, In (k0, c0) ((k, c) :: rest)
                        ∧ is_Some (slots_get k0 refinedSlots)
                        ∧ isDontCare c0 = true)
            ∨ (∃ k0 c0 r, In (k0, c0) ((k, c) :: rest)
                          ∧ slots_get k0 refinedSlots = Some r
                          ∧ filter_equals r c0 = true)
            ∨ (is_Some cp
               ∧ ∃ k0 c0, In (k0, c0) rest ∧ is_Some (slots_get k0 refinedSlots))
            ∨ (∃ k1 c1 k2 c2, k1 ≠ k2 ∧ In (k1, c1) ((k, c) :: rest)
                              ∧ In (k2, c2) ((k, c) :: rest)
                              ∧ is_Some (slots_get k1 refinedSlots)
                              ∧ is_Some (slots_get k2 refinedSlots))) as Hrest'.
  { intros cp Hnone.
    destruct (IH cp Hrest Hnone)
      as [(k0 & c0 & ? & ?) | [(k0 & c0 & ? & ? & ?) | [(k0 & c0 & r & ? & ? & ?)
         | [(? & k0 & c0 & ? & ?) | (k1 & c1 & k2 & c2 & ? & ? & ? & ? & ?)]]]].
    - left. exists k0, c0. split; [by right | done].
    - right; left. exists k0, c0. split; [by right | done].
    - right; right; left. exists k0, c0, r. split; [by right | done].
    - right; right; right; left. eauto.
    - right; right; right; right. exists k1, c1, k2, c2.
      repeat split; try done; by right. }
  destruct (bool_decide (is_Some (slots_get k negatedRefinedSlots))) eqn:Eneg.
  { intros _. left. exists k, c. split; [by left |].
    by apply bool_decide_eq_true in Eneg. }
  destruct (slots_get k refinedSlots) as [r |] eqn:Er.
  - destruct (isDontCare c) eqn:Edc.
    { intros _. right; left. exists k, c. split; [by left |]. by rewrite Er. }
    destruct (filter_equals r c) eqn:Eeq.
    { intros _. right; right; left. exists k, c, r. split; [by left | done]. }
    destruct (bool_decide (is_Some changedParam)) eqn:Ecp.
    { intros _. right; right; right; left. apply bool_decide_eq_true in Ecp.
      split; [done |]. exists k, c. split; [by left |]. by rewrite Er. }
    intros Hnone.
    destruct (Hrest' (Some k) Hnone)
      as [? | [? | [? | [(_ & k0 & c0 & Hin0 & Hr0) | ?]]]]; try tauto.
    right; right; right; right. exists k, c, k0, c0.
    split; [| split; [by left | split; [by right | split; [by rewrite Er | done]]]].
    intros ->. apply Hnotin, in_map_iff. by exists (k0, c0).
  - intros Hnone.
    destruct (Hrest' changedParam Hnone)
      as [? | [? | [? | [(? & k0 & c0 & ? & ?) | ?]]]]; try tauto.
    right; right; right; left. split; [done |]. exists k0, c0.
    split; [by right | done].
Qed.

(** X5.  When no field of the three slot objects is named as a member of
    [Object.prototype], the answerQuestionOrChangeFilter strategy rejects
    in exactly four cases: a field of the context slots is negated at top
    level in the new predicate; a field of both slot objects is a
    DontCare in the context; a field of both has equal clauses; or two
    different fields are in both slot objects. *)
Theorem refineFilterToAnswerQuestionOrChangeFilter_rejects_iff (old new : bexpr) :
  let ctxSlots := filterToSlots (optimize old) in
  let refinedSlots := filterToSlots (optimize new) in
  let negatedRefinedSlots := filterToNegatedSlots (optimize new) in
  plainSlotKeys ctxSlots = true →
  plainSlotKeys refinedSlots = true →
  plainSlotKeys negatedRefinedSlots = true →
  refineFilterToAnswerQuestionOrChangeFilter old new = None
  ↔ (∃ key, is_Some (slots_get key ctxSlots)
            ∧ is_Some (slots_get key negatedRefinedSlots))
    ∨ (∃ key ctxClause, slots_get key ctxSlots = Some ctxClause
                        ∧ is_Some (slots_get key refinedSlots)
                        ∧ isDontCare ctxClause = true)
    ∨ (∃ key ctxClause refinedClause,
         slots_get key ctxSlots = Some ctxClause
         ∧ slots_get key refinedSlots = Some refinedClause
         ∧ filter_equals refinedClause ctxClause = true)
    ∨ (∃ key1 key2, key1 ≠ key2
                    ∧ is_Some (slots_get key1 ctxSlots)
                    ∧ is_Some (slots_get key1 refinedSlots)
                    ∧ is_Some (slots_get key2 ctxSlots)
                    ∧ is_Some (slots_get key2 refinedSlots)).
Proof.
  intros ctxSlots refinedSlots negatedRefinedSlots _ _ _.
  assert (List.NoDup (map fst ctxSlots)) as Hnd.
  { unfold ctxSlots. rewrite filterToSlots_collect.
    apply collectSlots_NoDup. constructor. }
  unfold refineFilterToAnswerQuestionOrChangeFilter.
  fold ctxSlots refinedSlots negatedRefinedSlots.
  split.
  - destruct (checkCtxSlots _ _ ctxSlots None) eqn:E; [done |]. intros _.
    destruct (checkCtxSlots_None_inv _ _ _ _ Hnd E)
      as [(k & c & Hin & ?) | [(k & c & Hin & ? & ?) | [(k & c & r & Hin & ? & ?)
         | [([? [=]] & _) | (k1 & c1 & k2 & c2 & ? & Hin1 & Hin2 & ? & ?)]]]].
    + left. exists k. by rewrite (slots_get_of_In _ _ _ Hnd Hin).
    + right; left. exists k, c. by rewrite (slots_get_of_In _ _ _ Hnd Hin).
    + right; right; left. exists k, c, r.
      by rewrite (slots_get_of_In _ _ _ Hnd Hin).
    + right; right; right. exists k1, k2.
      by rewrite (slots_get_of_In _ _ _ Hnd Hin1),
                 (slots_get_of_In _ _ _ Hnd Hin2).
  - intros [(k & [c Hc] & Hneg) | [(k & c & Hc & Hr & Hdc)
           | [(k & c & r & Hc & Hr & Heq)
           | (k1 & k2 & Hne & [c1 Hc1] & Hr1 & [c2 Hc2] & Hr2)]]].
    + by rewrite (checkCtxSlots_negated _ _ ctxSlots k c (slots_get_In _ _ _ Hc) Hneg).
    + by rewrite (checkCtxSlots_dontcare _ _ ctxSlots k c (slots_get_In _ _ _ Hc) Hr Hdc).
    + by rewrite (checkCtxSlots_equal _ _ ctxSlots k c r (slots_get_In _ _ _ Hc) Hr Heq).
    + by rewrite (checkCtxSlots_second _ _ ctxSlots k1 k2 c1 c2 Hne
                    (slots_get_In _ _ _ Hc1) (slots_get_In _ _ _ Hc2) Hr1 Hr2).
Qed.

(** X6.  A request without top-level slots is never rejected by the
    changeFilter strategy, when no top-level slot of the old predicate is
    on a field named as a member of [Object.prototype]; and when the old
    predicate has no top-level slots, the strategy rejects exactly the
    requests that have one, when no top-level slot of the request is on a
    field so named. *)
Theorem refineFilterToChangeFilter_without_slots (old new : bexpr) :
  (plainSlotKeys (filterToSlots (optimize old)) = true →
   filterToSlots (optimize new) = [] →
     refineFilterToChangeFilter old new
     = Some (optimize
               (BAnd (List.filter (clauseIsGood (optimize new))
                                  (operandsOf (optimize old))
                      ++ [optimize new]))))
  ∧ (plainSlotKeys (filterToSlots (optimize new)) = true →
     filterToSlots (optimize old) = [] →
       (refineFilterToChangeFilter old new = None
        ↔ filterToSlots (optimize new) ≠ [])).
Proof.
  unfold refineFilterToChangeFilter. split.
  - intros _ ->. simpl.
    assert (existsb (λ '(key, _), false) (filterToSlots (optimize old)) = false)
      as Hno by (induction (filterToSlots (optimize old)) as [| [? ?] ? ?]; done).
    by rewrite Hno.
  - intros _ ->. simpl.
    by destruct (filterToSlots (optimize new)) as [| [k c] rest].
Qed.

End StrategiesMore.

(** The hypotheses of X5 hold for the search for italian restaurants
    refined by the request to exclude italian ones, which is rejected. *)
Lemma refineFilterToAnswerQuestionOrChangeFilter_rejects_iff_witness :
  let italian := BAtom "cuisine" "==" (VString "italian") in
  let notItalian := BNot italian in
  plainSlotKeys (filterToSlots (optimize italian)) = true
  ∧ plainSlotKeys (filterToSlots (optimize notItalian)) = true
  ∧ plainSlotKeys (filterToNegatedSlots (optimize notItalian)) = true
  ∧ refineFilterToAnswerQuestionOrChangeFilter italian notItalian = None.
Proof.
  intros italian notItalian.
  assert (plainSlotKeys (filterToSlots (optimize italian)) = true)
    as Hctx by (vm_compute; reflexivity).
  assert (plainSlotKeys (filterToSlots (optimize notItalian)) = true)
    as Hrefined by (vm_compute; reflexivity).
  assert (plainSlotKeys (filterToNegatedSlots (optimize notItalian)) = true)
    as Hnegated by (vm_compute; reflexivity).
  do 3 (split; [assumption |]).
  pose proof (refineFilterToAnswerQuestionOrChangeFilter_rejects_iff
                italian notItalian) as Hs.
  cbv zeta in Hs. apply (Hs Hctx Hrefined Hnegated).
  left. exists "cuisine". split; by eexists.
Defined.

(** The hypotheses of X6 hold for a request that only excludes a value,
    which is let through, and for a request on [cuisine] against the
    predicate [true], which is rejected. *)
Lemma refineFilterToChangeFilter_without_slots_witness :
  let italian := BAtom "cuisine" "==" (VString "italian") in
  let notCheap := BNot (BAtom "price_range" "==" (VString "cheap")) in
  plainSlotKeys (filterToSlots (optimize italian)) = true
  ∧ filterToSlots (optimize notCheap) = []
  ∧ refineFilterToChangeFilter italian notCheap = Some (BAnd [italian; notCheap])
  ∧ filterToSlots (optimize (@BTrue Value)) = []
  ∧ refineFilterToChangeFilter BTrue italian = None.
Proof.
  intros italian notCheap.
  assert (plainSlotKeys (filterToSlots (optimize italian)) = true)
    as Hplain by (vm_compute; reflexivity).
  split; [exact Hplain |].
  split; [reflexivity |]. split.
  - destruct (refineFilterToChangeFilter_without_slots italian notCheap)
      as (Hfree & _).
    rewrite (Hfree Hplain eq_refl). reflexivity.
  - split; [reflexivity |].
    destruct (refineFilterToChangeFilter_without_slots BTrue italian)
      as (_ & Hold).
    apply (Hold Hplain eq_refl). discriminate.
Defined.

Section FieldsOfResults.
Context {value : Type} `{ValueOps value} `{FilterOps value}.

Local Abbreviation bexpr := (BooleanExpression value).

Lemma getParamsInFilter_neutralize_subseteq (f : bexpr) :
  getParamsInFilter (neutralizeIDFilter f) ⊆ getParamsInFilter f.
Proof.
  induction f as [| | n | n op v | e IH | ops IH | ops IH | ch ps g IH | l op r]
    using BooleanExpression_nested_ind; simpl; try done.
  - destruct ((n =? "id") && (op =? "==")); simpl; set_solver.
  - induction IH as [| x l Hx _ IHl]; simpl; set_solver.
  - induction IH as [| x l Hx _ IHl]; simpl; set_solver.
Qed.

Lemma getParamsInFilter_operand (f clause : bexpr) :
  In clause (operandsOf f) → getParamsInFilter clause ⊆ getParamsInFilter f.
Proof.
  destruct f; simpl; try (intros [<- | []]; done).
  intros Hin x Hx. apply elem_of_union_list.
  exists (getParamsInFilter clause). split; [| done].
  apply list_elem_of_In, in_map_iff. eauto.
Qed.

Lemma getParamsInFilter_clauses (clauses : list bexpr) (X : gset string) :
  (∀ clause, In clause clauses → getParamsInFilter clause ⊆ X) →
  ⋃ (map getParamsInFilter clauses) ⊆ X.
Proof.
  induction clauses as [| c l IH]; simpl; intros Hall; [set_solver |].
  apply union_least; [apply Hall; by left |].
  apply IH. intros c' Hc'. apply Hall. by right.
Qed.

Section WithFieldPreservingOptimize.
Hypothesis optimize_fields :
  ∀ f : bexpr, getParamsInFilter (optimize f) ⊆ getParamsInFilter f.

(** X7.  When simplification introduces no field, the predicate that any
    of the three refinement strategies returns constrains no field that
    is in neither the old nor the new predicate. *)
Theorem strategies_introduce_no_field (old new result : bexpr) :
  refineFilterToAnswerQuestion old new = Some result
  ∨ refineFilterToChangeFilter old new = Some result
  ∨ refineFilterToAnswerQuestionOrChangeFilter old new = Some result →
  getParamsInFilter result ⊆ getParamsInFilter old ∪ getParamsInFilter new.
Proof.
  pose proof (optimize_fields old) as Hold.
  pose proof (optimize_fields new) as Hnew.
  intros [Hr | [Hr | Hr]].
  - unfold refineFilterToAnswerQuestion in Hr.
    destruct (setsIntersect _ _); [done |]. injection Hr as <-.
    etrans; [apply optimize_fields |]. simpl.
    pose proof (getParamsInFilter_neutralize_subseteq old). set_solver.
  - unfold refineFilterToChangeFilter in Hr.
    destruct (existsb _ _); [done |]. destruct (existsb _ _); [done |].
    injection Hr as <-.
    etrans; [apply optimize_fields |]. simpl. rewrite map_app, union_list_app_L.
    simpl. apply union_least; [| set_solver].
    apply getParamsInFilter_clauses. intros clause Hin.
    apply filter_In in Hin as [Hin _].
    pose proof (getParamsInFilter_operand _ _ Hin). set_solver.
  - unfold refineFilterToAnswerQuestionOrChangeFilter in Hr.
    destruct (checkCtxSlots _ _ _ _); [| done]. injection Hr as <-.
    etrans; [apply optimize_fields |]. simpl. rewrite map_app, union_list_app_L.
    simpl. apply union_least; [| set_solver].
    apply getParamsInFilter_clauses. intros clause Hin.
    apply in_flat_map in Hin as (c & Hc & Hin).
    pose proof (getParamsInFilter_operand _ _ Hc) as Hsub.
    pose proof (getParamsInFilter_neutralize_subseteq c) as Hneut.
    assert (clause = neutralizeIDFilter c) as ->.
    { destruct c; cbn [neutralizeIDFilter] in *;
        try destruct (bool_decide _); simpl in Hin;
        first [ done | by destruct Hin as [<- | []] ]. }
    set_solver.
Qed.

End WithFieldPreservingOptimize.

Lemma getParamsInFilter_mkAnd (operands : list bexpr) :
  getParamsInFilter (mkAnd operands) ⊆ ⋃ (map getParamsInFilter operands).
Proof.
  unfold mkAnd. destruct (existsb isFalse operands); [set_solver |].
  destruct operands as [| a [| b rest]]; simpl; set_solver.
Qed.

Lemma getParamsInFilter_mkOr (operands : list bexpr) :
  getParamsInFilter (mkOr operands) ⊆ ⋃ (map getParamsInFilter operands).
Proof.
  unfold mkOr. destruct (existsb isTrue operands); [set_solver |].
  destruct operands as [| a [| b rest]]; simpl; set_solver.
Qed.

(** The simplifier introduces no field. *)
Lemma simplify_fields (f : bexpr) :
  getParamsInFilter (simplify f) ⊆ getParamsInFilter f.
Proof.
  induction f as [| | n | n op v | e IH | ops IH | ops IH | ch ps g IH | l op r]
    using BooleanExpression_nested_ind; try done.
  - simpl. destruct (simplify e); simpl in *; set_solver.
  - cbn [simplify]. etrans; [apply getParamsInFilter_mkAnd |]. simpl.
    induction IH as [| x l Hx _ IHl]; simpl; [done |].
    rewrite map_app, union_list_app_L.
    apply union_least; [| set_solver].
    destruct (simplify x); simpl in *; set_solver.
  - cbn [simplify]. etrans; [apply getParamsInFilter_mkOr |]. simpl.
    induction IH as [| x l Hx _ IHl]; simpl; [done |].
    rewrite map_app, union_list_app_L.
    apply union_least; [| set_solver].
    destruct (simplify x); simpl in *; set_solver.
Qed.

End FieldsOfResults.

(** The hypotheses of X7 hold for the simplifier and the change of
    [rating >= 4] into [rating >= 3] beside a clause on [cuisine]. *)
Lemma strategies_introduce_no_field_witness :
  let cuisine := BAtom "cuisine" "==" (VString "italian") in
  let rating4 := BAtom "rating" ">=" (VNumber 4) in
  let rating3 := BAtom "rating" ">=" (VNumber 3) in
  refineFilterToChangeFilter (BAnd [cuisine; rating4]) rating3
  = Some (BAnd [cuisine; rating3])
  ∧ getParamsInFilter (BAnd [cuisine; rating3])
    ⊆ getParamsInFilter (BAnd [cuisine; rating4]) ∪ getParamsInFilter rating3.
Proof.
  intros cuisine rating4 rating3. split; [reflexivity |].
  eapply strategies_introduce_no_field;
    [exact simplify_fields | right; left; reflexivity].
Defined.

(** ** The attachment search and the query refinement, continued *)

Section QueryRefinementMore.
Context {value : Type} `{ValueOps value} `{FilterOps value}.

Local Abbreviation bexpr := (BooleanExpression value).

(** What a successful search says of the tree searched. *)
Lemma findOrMakeFilterTable_Some_inv (t root' : Table value)
    (ft : FilterTable value) :
  findOrMakeFilterTable t = Ret (Some root', Some ft) →
  root' = plug (holders ft) (filterTable ft)
  ∧ ∃ inner f s, filterTable ft = TFilter inner f s
      ∧ (t = plug (holders ft) (TFilter inner f s)
         ∨ (t = plug (holders ft) inner ∧ isInvocation inner = true
            ∧ f = BTrue ∧ s = schemaOf inner)).
Proof.
  destruct (table_decompose t) as (hs & node & -> & Hend).
  rewrite findOrMakeFilterTable_plug.
  destruct node; try done; simpl; rewrite rev_involutive; intros [= <- <-]; simpl;
    (split; [reflexivity |]); do 3 eexists; (split; [reflexivity |]).
  - right. done.
  - by left.
Qed.

(** X8.  The attachment search is idempotent: searching the tree that a
    successful search returned finds, without making anything up, the
    same tree and the same filter node, which is a Filter. *)
Theorem findOrMakeFilterTable_idempotent (t root' : Table value)
    (ft : FilterTable value) :
  findOrMakeFilterTable t = Ret (Some root', Some ft) →
  findOrMakeFilterTable root' = Ret (Some root', Some ft)
  ∧ ∃ inner f s, filterTable ft = TFilter inner f s.
Proof.
  intros Hfind.
  destruct (findOrMakeFilterTable_Some_inv _ _ _ Hfind)
    as (-> & inner & f & s & Hft & _).
  split; [| eauto].
  rewrite findOrMakeFilterTable_plug, Hft. simpl. rewrite rev_involutive.
  destruct ft as [hs node]. simpl in *. by subst node.
Qed.

Section WithResolveProjection.
Variable resolveProjection : list string → FunctionDef → res FunctionDef.

(** X9.  queryRefinement returns null exactly when the attachment search
    finds or makes a filter over the invocation and the strategy rejects
    the pair of its predicate and the new predicate: a null result never
    comes from the tree or from the projection. *)
Theorem queryRefinement_null_iff (t : Table value) (newFilter : bexpr)
    (refineFilter : bexpr → bexpr → option bexpr)
    (newProjection : option (list string)) :
  queryRefinement resolveProjection t newFilter refineFilter newProjection
  = Ret None
  ↔ ∃ root' ft inner ctxFilter s,
      findOrMakeFilterTable t = Ret (Some root', Some ft)
      ∧ filterTable ft = TFilter inner ctxFilter s
      ∧ isInvocation inner = true
      ∧ refineFilter ctxFilter newFilter = None.
Proof.
  unfold queryRefinement. split.
  - destruct (findOrMakeFilterTable t) as [[root' [ft |]] | e] eqn:Efind;
      simpl; try done.
    destruct (filterTable ft) as [| inner f s | | | | | | | | | | | | | |] eqn:Eft;
      try done.
    destruct (isInvocation inner) eqn:Einv; simpl; [| done].
    destruct (refineFilter f newFilter) as [refined |] eqn:Eref.
    + destruct newProjection as [fields |]; simpl.
      * destruct (isProjection _); simpl; [done |].
        by destruct (resolveProjection _ _).
      * destruct (plug _ _); simpl; try done;
          destruct (isProjection _); simpl; try done.
        destruct (0 <? _)%nat; [| done]. by destruct (resolveProjection _ _).
    + intros _. destruct root' as [root' |].
      * by exists root', ft, inner, f, s.
      * unfold findOrMakeFilterTable in Efind.
        destruct (findFilterTableFrom t []) as [[?|]|]; simpl in Efind; done.
  - intros (root' & ft & inner & f & s & -> & Hft & Hinv & Hrej). simpl.
    by rewrite Hft, Hinv; simpl; rewrite Hrej.
Qed.

End WithResolveProjection.

End QueryRefinementMore.

(** The hypothesis of X8 holds for the search of a projection of
    [restaurant()], which makes up the filter below the projection. *)
Lemma findOrMakeFilterTable_idempotent_witness :
  let schema := {| class_name := "com.yelp"; name := "restaurant" |} in
  let inv : Invocation Value :=
    {| channel := "restaurant"; in_params := []; inv_schema := schema |} in
  let made := TFilter (TInvocation inv schema) BTrue schema in
  let root' := TProjection made ["price_range"] schema in
  let ft := {| holders := [HProjection ["price_range"] schema];
               filterTable := made |} in
  findOrMakeFilterTable (TProjection (TInvocation inv schema) ["price_range"] schema)
  = Ret (Some root', Some ft)
  ∧ findOrMakeFilterTable root' = Ret (Some root', Some ft).
Proof.
  intros schema inv made root' ft.
  assert (findOrMakeFilterTable
            (TProjection (TInvocation inv schema) ["price_range"] schema)
          = Ret (Some root', Some ft)) as Hfind by reflexivity.
  split; [exact Hfind |].
  exact (proj1 (findOrMakeFilterTable_idempotent _ _ _ Hfind)).
Defined.

Section QueryRefinementResults.
Context {value : Type} `{ValueOps value} `{FilterOps value}.

Local Abbreviation bexpr := (BooleanExpression value).

Variable resolveProjection : list string → FunctionDef → res FunctionDef.

(** The shape of a tree that queryRefinement returns: the refined filter
    over the invocation, below a chain of holders. *)
Lemma queryRefinement_Some_inv (t : Table value) (newFilter : bexpr)
    (refineFilter : bexpr → bexpr → option bexpr)
    (newProjection : option (list string)) (result : Table value) :
  queryRefinement resolveProjection t newFilter refineFilter newProjection
  = Ret (Some result) →
  ∃ hs inner ctxFilter s refined,
    findOrMakeFilterTable t
    = Ret (Some (plug hs (TFilter inner ctxFilter s)),
           Some {| holders := hs; filterTable := TFilter inner ctxFilter s |})
    ∧ isInvocation inner = true
    ∧ refineFilter ctxFilter newFilter = Some refined
    ∧ queryRefinement resolveProjection (plug hs (TFilter inner ctxFilter s))
        newFilter refineFilter newProjection
      = Ret (Some result)
    ∧ (t = plug hs (TFilter inner ctxFilter s)
       ∨ (t = plug hs inner ∧ ctxFilter = BTrue)).
Proof.
  intros Hq. pose proof Hq as Hq'. unfold queryRefinement in Hq.
  destruct (findOrMakeFilterTable t) as [[root' [ft |]] | e] eqn:Efind;
    simpl in Hq; try done.
  destruct root' as [root' |]; cycle 1.
  { unfold findOrMakeFilterTable in Efind.
    destruct (findFilterTableFrom t []) as [[?|]|]; simpl in Efind; done. }
  destruct (findOrMakeFilterTable_Some_inv _ _ _ Efind)
    as (-> & inner & f & s & Hft & Hshape).
  destruct ft as [hs node]. simpl in *. subst node.
  destruct (isInvocation inner) eqn:Einv; simpl in Hq; [| done].
  destruct (refineFilter f newFilter) as [refined |] eqn:Eref; [| done].
  exists hs, inner, f, s, refined. repeat split; try done.
  - unfold queryRefinement. rewrite findOrMakeFilterTable_plug. simpl.
    rewrite rev_involutive. simpl. rewrite Einv. simpl. rewrite Eref. exact Hq.
  - destruct Hshape as [-> | (-> & _ & -> & _)]; [by left | by right].
Qed.

(** X10.  With an explicit projection, a tree that queryRefinement
    returns is a projection on exactly the given fields of a table that
    is no projection. *)
Theorem queryRefinement_explicit_projection (t : Table value) (newFilter : bexpr)
    (refineFilter : bexpr → bexpr → option bexpr) (fields : list string)
    (result : Table value) :
  queryRefinement resolveProjection t newFilter refineFilter (Some fields)
  = Ret (Some result) →
  ∃ base s', result = TProjection base fields s' ∧ isProjection base = false.
Proof.
  unfold queryRefinement.
  destruct (findOrMakeFilterTable t) as [[root' [ft |]] | e]; simpl; try done.
  destruct (filterTable ft); try done.
  destruct (isInvocation _); simpl; [| done].
  destruct (refineFilter _ _) as [refined |]; [| done]. simpl.
  destruct (isProjection _) eqn:Ebase; simpl; [done |].
  destruct (resolveProjection _ _) as [s' |]; simpl; [| done].
  intros [= <-]. eauto.
Qed.

(** X11.  Without an explicit projection, a projection that
    queryRefinement returns is the projection of the context restricted
    to the fields that the refined predicate does not use, which are not
    none; and when the result of refining a projection is no projection,
    the refined predicate uses every field of that projection. *)
Theorem queryRefinement_projection_shrinks (t : Table value) (newFilter : bexpr)
    (refineFilter : bexpr → bexpr → option bexpr) (result : Table value) :
  queryRefinement resolveProjection t newFilter refineFilter None
  = Ret (Some result) →
  ∃ root' ft inner ctxFilter s refined,
    findOrMakeFilterTable t = Ret (Some root', Some ft)
    ∧ filterTable ft = TFilter inner ctxFilter s
    ∧ refineFilter ctxFilter newFilter = Some refined
    ∧ (∀ base args s', result = TProjection base args s' →
         args ≠ [] ∧ isProjection base = false
         ∧ ∃ t0 oldArgs s0,
             t = TProjection t0 oldArgs s0
             ∧ args = List.filter
                        (fun pname => negb (filterUsesParam refined pname))
                        oldArgs)
    ∧ (isProjection result = false →
       ∀ t0 oldArgs s0, t = TProjection t0 oldArgs s0 →
         ∀ pname, In pname oldArgs → filterUsesParam refined pname = true).
Proof.
  intros Hq.
  destruct (queryRefinement_Some_inv _ _ _ _ _ Hq)
    as (hs & inner & f & s & refined & Hfind & Hinv & Href & Hq' & Ht).
  eexists _, _, inner, f, s, refined.
  split; [exact Hfind |]. split; [reflexivity |]. split; [exact Href |].
  clear Hq Hfind. unfold queryRefinement in Hq'.
  rewrite findOrMakeFilterTable_plug in Hq'. simpl in Hq'.
  rewrite rev_involutive in Hq'. simpl in Hq'.
  rewrite Hinv in Hq'. simpl in Hq'. rewrite Href in Hq'.
  assert (∀ node : Table value, isProjection node = false →
            t = plug hs node → ∀ h, hs = h :: tl hs →
            (∀ a sp, h ≠ HProjection a sp) → isProjection t = false) as Hnoproj.
  { intros node _ -> h -> Hh. destruct h; try done. by destruct (Hh args schema). }
  destruct hs as [| h hs'].
  - simpl in Hq'. injection Hq' as <-. split; [done |].
    intros _ t0 oldArgs s0 ->.
    destruct Ht as [Ht | [Ht _]]; simpl in Ht; [done |].
    subst inner. done.
  - destruct h as [sp | sp | sp | oldArgs sp | sp | sp | lhs sp];
      simpl in Hq';
      try (injection Hq' as <-; split; [done |];
           intros _ t0 a0 s0 ->; by destruct Ht as [Ht | [Ht _]]).
    destruct (isProjection (plug hs' (TFilter inner refined s))) eqn:Ebase;
      simpl in Hq'; [done |].
    destruct (0 <? length _)%nat eqn:Elen.
    + destruct (resolveProjection _ _) as [s' |]; simpl in Hq'; [| done].
      injection Hq' as <-. split; [| done].
      intros base args s'' [= <- <- <-].
      split; [| split; [done |]].
      * intros Hnil. rewrite Hnil in Elen. done.
      * destruct Ht as [-> | [-> _]]; simpl; eauto.
    + injection Hq' as <-. split.
      * intros base args s' Heq. rewrite Heq in Ebase. done.
      * intros _ t0 a0 s0 Heq pname Hin.
        assert (a0 = oldArgs) as ->
          by (destruct Ht as [-> | [-> _]]; simpl in Heq; congruence).
        apply Nat.ltb_ge in Elen.
        destruct (filterUsesParam refined pname) eqn:Euse; [done |].
        assert (In pname (List.filter
                            (λ pname, negb (filterUsesParam refined pname))
                            oldArgs)) as Hf
          by (apply filter_In; by rewrite Euse).
        destruct (List.filter _ oldArgs); [done | simpl in Elen; lia].
Qed.

(** X12.  The attachment search of a tree that queryRefinement returns
    finds, without making anything up, a filter over the invocation whose
    predicate is the one the strategy returned. *)
Theorem queryRefinement_result_attachment (t : Table value) (newFilter : bexpr)
    (refineFilter : bexpr → bexpr → option bexpr)
    (newProjection : option (list string)) (result : Table value) :
  queryRefinement resolveProjection t newFilter refineFilter newProjection
  = Ret (Some result) →
  ∃ root' ft inner ctxFilter s refined ft',
    findOrMakeFilterTable t = Ret (Some root', Some ft)
    ∧ filterTable ft = TFilter inner ctxFilter s
    ∧ refineFilter ctxFilter newFilter = Some refined
    ∧ findOrMakeFilterTable result = Ret (Some result, Some ft')
    ∧ filterTable ft' = TFilter inner refined s
    ∧ isInvocation inner = true.
Proof.
  intros Hq.
  destruct (queryRefinement_Some_inv _ _ _ _ _ Hq)
    as (hs & inner & f & s & refined & Hfind & Hinv & Href & Hq' & _).
  assert (∃ hs'', result = plug hs'' (TFilter inner refined s)) as (hs'' & ->).
  { clear Hq Hfind. unfold queryRefinement in Hq'.
    rewrite findOrMakeFilterTable_plug in Hq'. simpl in Hq'.
    rewrite rev_involutive in Hq'. simpl in Hq'.
    rewrite Hinv in Hq'. simpl in Hq'. rewrite Href in Hq'.
    assert (∃ hs1, match plug hs (TFilter inner refined s) with
                   | TProjection t0 _ _ => t0
                   | _ => plug hs (TFilter inner refined s)
                   end = plug hs1 (TFilter inner refined s)) as (hs1 & Hbase).
    { destruct hs as [| h hs']; [by exists [] |].
      destruct h as [sp | sp | sp | a sp | sp | sp | l sp]; simpl;
        [ by exists (HSort sp :: hs') | by exists (HIndex sp :: hs')
        | by exists (HSlice sp :: hs') | by exists hs'
        | by exists (HCompute sp :: hs') | by exists (HAlias sp :: hs')
        | by exists (HJoin l sp :: hs') ]. }
    destruct newProjection as [fields |].
    - rewrite Hbase in Hq'.
      destruct (isProjection _); simpl in Hq'; [done |].
      destruct (resolveProjection _ _) as [s' |]; simpl in Hq'; [| done].
      injection Hq' as <-. by exists (HProjection fields s' :: hs1).
    - destruct (plug hs (TFilter inner refined s)) eqn:Eplug;
        try (injection Hq' as <-; exists hs; by rewrite Eplug).
      simpl in Hbase, Hq'. rewrite Hbase in Hq'.
      destruct (isProjection _); simpl in Hq'; [done |].
      destruct (0 <? _)%nat.
      + destruct (resolveProjection _ _) as [s' |]; simpl in Hq'; [| done].
        injection Hq' as <-. by eexists (HProjection _ s' :: hs1).
      + injection Hq' as <-. by exists hs1. }
  eexists _, _, inner, f, s, refined, _.
  split; [exact Hfind |]. split; [reflexivity |]. split; [exact Href |].
  split; [rewrite findOrMakeFilterTable_plug; simpl;
          by rewrite rev_involutive |].
  split; [reflexivity | exact Hinv].
Qed.

End QueryRefinementResults.

(** The hypotheses of X10, X11 and X12 hold for the refinement of a
    projection of [restaurant()] on [price_range] and [address] by the
    answer [price_range == "cheap"]. *)
Lemma queryRefinement_explicit_projection_witness :
  let schema := {| class_name := "com.yelp"; name := "restaurant" |} in
  let inv : Invocation Value :=
    {| channel := "restaurant"; in_params := []; inv_schema := schema |} in
  let cheap := BAtom "price_range" "==" (VString "cheap") in
  let refined := TFilter (TInvocation inv schema) cheap schema in
  queryRefinement (fun _ s => Ret s)
    (TProjection (TInvocation inv schema) ["price_range"; "address"] schema)
    cheap refineFilterToAnswerQuestion (Some ["phone"])
  = Ret (Some (TProjection refined ["phone"] schema))
  ∧ ∃ base s', TProjection refined ["phone"] schema = TProjection base ["phone"] s'
               ∧ isProjection base = false.
Proof.
  intros schema inv cheap refined.
  assert (queryRefinement (fun _ s => Ret s)
            (TProjection (TInvocation inv schema) ["price_range"; "address"] schema)
            cheap refineFilterToAnswerQuestion (Some ["phone"])
          = Ret (Some (TProjection refined ["phone"] schema))) as Hq
    by (vm_compute; reflexivity).
  split; [exact Hq |].
  exact (queryRefinement_explicit_projection _ _ _ _ _ _ Hq).
Defined.

Lemma queryRefinement_projection_shrinks_witness :
  let schema := {| class_name := "com.yelp"; name := "restaurant" |} in
  let inv : Invocation Value :=
    {| channel := "restaurant"; in_params := []; inv_schema := schema |} in
  let cheap := BAtom "price_range" "==" (VString "cheap") in
  let refined := TFilter (TInvocation inv schema) cheap schema in
  let table := TProjection (TInvocation inv schema) ["price_range"; "address"] schema in
  queryRefinement (fun _ s => Ret s) table cheap refineFilterToAnswerQuestion None
  = Ret (Some (TProjection refined ["address"] schema))
  ∧ ∃ t0 oldArgs s0,
      table = TProjection t0 oldArgs s0
      ∧ ["address"] = List.filter (fun pname => negb (filterUsesParam cheap pname))
                                  oldArgs.
Proof.
  intros schema inv cheap refined table.
  assert (queryRefinement (fun _ s => Ret s) table cheap
            refineFilterToAnswerQuestion None
          = Ret (Some (TProjection refined ["address"] schema))) as Hq
    by (vm_compute; reflexivity).
  split; [exact Hq |].
  destruct (queryRefinement_projection_shrinks _ _ _ _ _ Hq)
    as (root' & ft & inner & f & s & r & Hfind & Hft & Href & Hproj & _).
  destruct (Hproj _ _ _ eq_refl) as (_ & _ & t0 & oldArgs & s0 & Ht & _).
  exists t0, oldArgs, s0. split; [exact Ht |].
  injection Ht as <- <- <-. reflexivity.
Defined.

Lemma queryRefinement_result_attachment_witness :
  let schema := {| class_name := "com.yelp"; name := "restaurant" |} in
  let inv : Invocation Value :=
    {| channel := "restaurant"; in_params := []; inv_schema := schema |} in
  let cheap := BAtom "price_range" "==" (VString "cheap") in
  let refined := TFilter (TInvocation inv schema) cheap schema in
  let table := TProjection (TInvocation inv schema) ["price_range"; "address"] schema in
  let result := TProjection refined ["address"] schema in
  queryRefinement (fun _ s => Ret s) table cheap refineFilterToAnswerQuestion None
  = Ret (Some result)
  ∧ ∃ ft', findOrMakeFilterTable result = Ret (Some result, Some ft')
           ∧ filterTable ft' = refined.
Proof.
  intros schema inv cheap refined table result.
  assert (queryRefinement (fun _ s => Ret s) table cheap
            refineFilterToAnswerQuestion None
          = Ret (Some result)) as Hq by (vm_compute; reflexivity).
  split; [exact Hq |].
  destruct (queryRefinement_result_attachment _ _ _ _ _ _ Hq)
    as (root' & ft & inner & f & s & r & ft' & Hfind & Hft & Href & Hfind' & Hft' & _).
  exists ft'. split; [exact Hfind' |].
  injection Hfind' as <-. reflexivity.
Defined.

(** ** Grounding checks, continued *)

Section GroundingMore.
Context {value : Type} `{ValueOps value} `{FilterOps value}.

Lemma take_min_length {A} (n : nat) (l : list A) :
  take (n `min` length l) l = take n l.
Proof.
  destruct (Nat.le_ge_cases n (length l)) as [Hle | Hge].
  - by rewrite Nat.min_l.
  - rewrite Nat.min_r by done. by rewrite firstn_all, take_ge.
Qed.

(** X13.  The top-3 grounding check reads the first three results only:
    it gives the same verdict on the results and on their first three,
    whatever follows them; and it fails when there is no result. *)
Theorem compatibleWithTop3_first_three (results rest : list (ResultItem value))
    (info : SlotBag value) :
  compatibleWithTop3 results info = compatibleWithTop3 (take 3 results) info
  ∧ ((3 ≤ length results)%nat →
       compatibleWithTop3 (results ++ rest)%list info = compatibleWithTop3 results info)
  ∧ compatibleWithTop3 [] info = false.
Proof.
  unfold compatibleWithTop3. rewrite !take_min_length, take_take.
  split; [reflexivity |]. split; [| reflexivity].
  intros Hlen. by rewrite take_app_le.
Qed.

(** X14.  A bag that states no more than another is compatible with
    every result the other is compatible with, and passes the top-3 check
    whenever the other does; the empty bag is compatible with every
    result. *)
Theorem isInfoPhraseCompatibleWithResult_weakening (info info' : SlotBag value) :
  (∀ entry, In entry (bag_store info') → In entry (bag_store info)) →
  (∀ result, isInfoPhraseCompatibleWithResult result info = true →
             isInfoPhraseCompatibleWithResult result info' = true)
  ∧ (∀ results, compatibleWithTop3 results info = true →
                compatibleWithTop3 results info' = true)
  ∧ (bag_store info' = [] →
     ∀ result, isInfoPhraseCompatibleWithResult result info' = true).
Proof.
  intros Hsub.
  assert (∀ result, isInfoPhraseCompatibleWithResult result info = true →
                    isInfoPhraseCompatibleWithResult result info' = true) as Hone.
  { intros result. unfold isInfoPhraseCompatibleWithResult.
    rewrite !forallb_forall. intros Hall entry Hin. apply Hall, Hsub, Hin. }
  split; [exact Hone |]. split.
  - intros results. unfold compatibleWithTop3. rewrite !existsb_exists.
    intros (result & Hin & Hc). exists result. split; [done | by apply Hone].
  - intros Hnil result. unfold isInfoPhraseCompatibleWithResult. by rewrite Hnil.
Qed.

Section CheckInfoPhraseMore.
Context {HistoryItem : Type}.

Local Abbreviation ContextInfo := (ContextInfo value HistoryItem).

(** X15.  Without results, checkInfoPhrase never accepts: it returns null
    when the function identities differ or a projection is active, and
    otherwise fails on its assertion that there is a top result. *)
Theorem checkInfoPhrase_without_results (ctx : ContextInfo) (info : SlotBag value) :
  results ctx = [] →
  (∀ accepted, checkInfoPhrase ctx info ≠ Ret (Some accepted))
  ∧ (checkInfoPhrase ctx info = Throw AssertionError
     ↔ currentFunction ctx
       = Some (class_name (bag_schema info) ++ ":" ++ name (bag_schema info))
       ∧ resultInfo_projection ctx = None)
  ∧ (checkInfoPhrase ctx info = Ret None
     ↔ ¬ (currentFunction ctx
          = Some (class_name (bag_schema info) ++ ":" ++ name (bag_schema info))
          ∧ resultInfo_projection ctx = None)).
Proof.
  intros Hres. unfold checkInfoPhrase. rewrite Hres.
  destruct (bool_decide _) eqn:Efun; simpl.
  - apply bool_decide_eq_true in Efun.
    destruct (resultInfo_projection ctx) as [projection |]; simpl.
    + destruct (forallb _ projection); simpl; naive_solver.
    + naive_solver.
  - apply bool_decide_eq_false in Efun. naive_solver.
Qed.

(** X16.  When no projection is active and the function identity of the
    bag is that of the context, checkInfoPhrase accepts, returning the
    bag, exactly when every field of the bag is a field of the top result
    and the top-3 grounding check holds, and returns null otherwise. *)
Theorem checkInfoPhrase_default (ctx : ContextInfo) (info : SlotBag value)
    (top : ResultItem value) (rest : list (ResultItem value)) :
  resultInfo_projection ctx = None →
  results ctx = top :: rest →
  currentFunction ctx
  = Some (class_name (bag_schema info) ++ ":" ++ name (bag_schema info)) →
  (checkInfoPhrase ctx info = Ret (Some info)
   ↔ (∀ pname, In pname (bag_keys info) → is_Some (item_value top !! pname))
     ∧ compatibleWithTop3 (results ctx) info = true)
  ∧ (checkInfoPhrase ctx info = Ret (Some info)
     ∨ checkInfoPhrase ctx info = Ret None).
Proof.
  intros Hproj Hres Hfun. unfold checkInfoPhrase.
  rewrite Hproj, Hfun, bool_decide_eq_true_2 by reflexivity.
  rewrite Hres. simpl.
  destruct (forallb _ (bag_keys info)) eqn:Enames; simpl.
  - rewrite forallb_forall in Enames.
    assert (∀ pname, In pname (bag_keys info) → is_Some (item_value top !! pname))
      as Hnames.
    { intros pname Hin. specialize (Enames pname Hin).
      by apply bool_decide_eq_true in Enames. }
    destruct (compatibleWithTop3 (top :: rest) info); [| naive_solver].
    split; [done | by left].
  - split; [| by right]. split; [done |]. intros [Hall _].
    apply not_true_iff_false in Enames. destruct Enames.
    apply forallb_forall. intros pname Hin. apply bool_decide_eq_true.
    by apply Hall.
Qed.

End CheckInfoPhraseMore.

End GroundingMore.

(** ** Recommendations and list proposals *)

Section ProposalFacts.
Context {value ty : Type} `{ValueOps value} `{FilterOps value}
        `{SchemaRegistry value ty}.
Context {HistoryItem : Type}.
Variable getActionInvocation : option HistoryItem → res (Invocation value).

Local Abbreviation ContextInfo := (ContextInfo value HistoryItem).
Local Abbreviation Recommendation := (Recommendation value HistoryItem).

(** X17.  checkListProposal fails with a TypeError when the list of
    results is empty or its first result has no [id]; and a list
    proposal that it accepts is returned with the results and the bag
    unchanged, the [id] of the first result having the type of the [id]
    argument of the bag's function and every result of the list
    grounding every field of the bag. *)
Theorem checkListProposal_spec (ctx : ContextInfo)
    (results : list (ResultItem value)) (info : SlotBag value) :
  (results = [] → checkListProposal getActionInvocation ctx results info
                  = Throw TypeError)
  ∧ (∀ first rest, results = first :: rest → item_value first !! "id" = None →
       checkListProposal getActionInvocation ctx results info = Throw TypeError)
  ∧ (∀ results' info' action,
       checkListProposal getActionInvocation ctx results info
       = Ret (Some (results', info', action)) →
       results' = results ∧ info' = info
       ∧ (∃ first rest id idType,
            results = first :: rest
            ∧ item_value first !! "id" = Some id
            ∧ getArgType (bag_schema info) "id" = Some idType
            ∧ type_equals idType (getType id) = true)
       ∧ ∀ result pname infoValue,
           In result results → In (pname, infoValue) (bag_store info) →
           fieldGrounded result pname infoValue).
Proof.
  unfold checkListProposal. split; [by intros -> |].
  split; [by intros first rest -> -> |].
  intros results' info' act.
  destruct results as [| first rest]; [done |].
  destruct (item_value first !! "id") as [id |] eqn:Hid; [| done].
  destruct (getArgType (bag_schema info) "id") as [idType |] eqn:Harg; [| done].
  destruct (type_equals idType (getType id)) eqn:Hty; cbn [negb]; [| done].
  destruct (forallb _ (first :: rest)) eqn:Hall; cbn [negb]; [| done].
  intros Hret.
  assert ((results', info') = (first :: rest, info)) as [= -> ->].
  { destruct (nextInfo ctx) as [[[|]] |]; simpl in Hret;
      try (by injection Hret as <- <- _).
    destruct (getActionInvocation (next ctx)); simpl in Hret; [| done].
    by injection Hret as <- <- _. }
  split; [done |]. split; [done |]. split; [by exists first, rest, id, idType |].
  intros result pname infoValue Hin Hentry.
  rewrite forallb_forall in Hall. specialize (Hall result Hin).
  by apply (isInfoPhraseCompatibleWithResult_spec result info).
Qed.

(** X18.  A list proposal of the single result of a recommendation is
    rejected exactly when the recommendation is, and fails with a
    TypeError exactly when the check of the recommendation does. *)
Theorem checkListProposal_singleton (ctx : ContextInfo) (rec : Recommendation)
    (info : SlotBag value) :
  (checkListProposal getActionInvocation ctx [topResult rec] info = Ret None
   ↔ checkRecommendation rec info = Ret None)
  ∧ (checkRecommendation rec info = Throw TypeError
     → checkListProposal getActionInvocation ctx [topResult rec] info
       = Throw TypeError)
  ∧ (∀ accepted, checkRecommendation rec info = Ret (Some accepted) →
       checkListProposal getActionInvocation ctx [topResult rec] info
       ≠ Ret None).
Proof.
  unfold checkListProposal, checkRecommendation.
  destruct (item_value (topResult rec) !! "id") as [id |]; [| done].
  destruct (getArgType (bag_schema info) "id") as [idType |]; [| done].
  destruct (type_equals idType (getType id)); simpl; [| done].
  rewrite andb_true_r.
  destruct (isInfoPhraseCompatibleWithResult (topResult rec) info); simpl;
    [| done].
  assert (∀ A (m : res (option (Invocation value))) (k : option (Invocation value) → A),
            (m ≫= λ a, Ret (Some (k a))) ≠ Ret None) as Hne
    by (intros A [a |]; done).
  split; [split; [intros Habs; by apply Hne in Habs | done] |].
  split; [done |]. intros _ _. apply Hne.
Qed.

(** X19.  A recommendation that makeRecommendation or
    makeActionRecommendation produces can be checked against any bag
    without a failure: checkRecommendation returns on it. *)
Theorem checkRecommendation_after_make (ctx : ContextInfo) (rec : Recommendation)
    (info : SlotBag value) :
  (∃ name, makeRecommendation getActionInvocation ctx name = Ret (Some rec))
  ∨ (∃ action, makeActionRecommendation ctx action = Ret (Some rec)) →
  ∃ outcome, checkRecommendation rec info = Ret outcome.
Proof.
  intros Hmade.
  assert (is_Some (item_value (topResult rec) !! "id")) as [id Hid].
  { destruct Hmade as [(nm & Hmade) | (act & Hmade)].
    - unfold makeRecommendation in Hmade.
      destruct (results ctx) as [| top rest]; simpl in Hmade; [done |].
      destruct (item_value top !! "id") as [id |] eqn:Hid; [| done].
      destruct (negb (value_equals id nm)); [done |].
      destruct (nextInfo ctx) as [[[|]] |]; simpl in Hmade;
        try (injection Hmade as <-; simpl; by rewrite Hid).
      destruct (getActionInvocation (next ctx)); simpl in Hmade; [| done].
      injection Hmade as <-. simpl. by rewrite Hid.
    - unfold makeActionRecommendation in Hmade.
      destruct (results ctx) as [| top rest]; simpl in Hmade; [done |].
      destruct (item_value top !! "id") as [id |] eqn:Hid; [| done].
      destruct (existsb _ _); [| done].
      injection Hmade as <-. simpl. by rewrite Hid. }
  unfold checkRecommendation. rewrite Hid.
  destruct (getArgType _ _); [| by eexists].
  destruct (negb _); [by eexists |].
  destruct (negb _); by eexists.
Qed.

(** The flags that the loop over the results raises are witnessed by
    results it has read. *)
Lemma findBothValues_sound (pname : string) (v1 v2 : value)
    (results : list (ResultItem value)) (good1 good2 good1' good2' : bool) :
  findBothValues pname v1 v2 results good1 good2 = Some (good1', good2') →
  (good1' = true → good1 = true
     ∨ ∃ result w, In result results ∧ item_value result !! pname = Some w
                   ∧ value_equals w v1 = true)
  ∧ (good2' = true → good2 = true
       ∨ ∃ result w, In result results ∧ item_value result !! pname = Some w
                     ∧ value_equals w v2 = true).
Proof.
  revert good1 good2.
  induction results as [| result rest IH]; intros good1 good2; simpl.
  - intros [= -> ->]. split; by left.
  - destruct (item_value result !! pname) as [w |] eqn:Hw; [| done].
    assert (∀ g1 g2,
              (g1 = (if value_equals w v1 then true else good1)) →
              (g2 = (if value_equals w v2 then true else good2)) →
              (g1 = true → good1 = true
                 ∨ ∃ result0 w0, In result0 (result :: rest)
                                 ∧ item_value result0 !! pname = Some w0
                                 ∧ value_equals w0 v1 = true)
              ∧ (g2 = true → good2 = true
                   ∨ ∃ result0 w0, In result0 (result :: rest)
                                   ∧ item_value result0 !! pname = Some w0
                                   ∧ value_equals w0 v2 = true)) as Hstep.
    { intros g1 g2 -> ->. split.
      - destruct (value_equals w v1) eqn:E; [| by left].
        intros _. right. exists result, w. split; [by left | done].
      - destruct (value_equals w v2) eqn:E; [| by left].
        intros _. right. exists result, w. split; [by left | done]. }
    destruct (_ && _).
    + intros [= <- <-]. by apply Hstep.
    + intros Hrest. destruct (IH _ _ Hrest) as [IH1 IH2].
      destruct (Hstep _ _ eq_refl eq_refl) as [Hs1 Hs2].
      split; intros Hg.
      * destruct (IH1 Hg) as [Hprev | (r & w0 & ? & ? & ?)]; [by apply Hs1 |].
        right. exists r, w0. split; [by right | done].
      * destruct (IH2 Hg) as [Hprev | (r & w0 & ? & ? & ?)]; [by apply Hs2 |].
        right. exists r, w0. split; [by right | done].
Qed.

(** X20.  A pair of filters that checkFilterPairForDisjunctiveQuestion
    accepts is a pair of atoms on the returned field, with values of the
    returned type that are not equal, each of which is the value of that
    field in some result; no pair is accepted without results. *)
Theorem checkFilterPairForDisjunctiveQuestion_sound
    (results : list (ResultItem value)) (f1 f2 : BooleanExpression value)
    (pname : string) (t : ty) :
  checkFilterPairForDisjunctiveQuestion results f1 f2 = Ret (Some (pname, t)) →
  (∃ op1 v1 op2 v2,
     f1 = BAtom pname op1 v1 ∧ f2 = BAtom pname op2 v2
     ∧ t = getType v1
     ∧ type_equals (getType v1) (getType v2) = true
     ∧ value_equals v1 v2 = false
     ∧ (∃ result w, In result results ∧ item_value result !! pname = Some w
                    ∧ value_equals w v1 = true)
     ∧ (∃ result w, In result results ∧ item_value result !! pname = Some w
                    ∧ value_equals w v2 = true))
  ∧ results ≠ [].
Proof.
  unfold checkFilterPairForDisjunctiveQuestion.
  destruct (bool_decide (slotName f1 = slotName f2)) eqn:Ename; simpl; [| done].
  apply bool_decide_eq_true in Ename.
  destruct f1 as [| | | n1 op1 v1 | | | | |]; simpl; try done.
  destruct f2 as [| | | n2 op2 v2 | | | | |]; simpl; try done.
  simpl in Ename. injection Ename as <-.
  destruct (type_equals (getType v1) (getType v2)) eqn:Hty; simpl; [| done].
  destruct (value_equals v1 v2) eqn:Heq; [done |].
  destruct (findBothValues n1 v1 v2 results false false) as [[g1 g2] |] eqn:Hloop;
    [| done].
  destruct g1, g2; simpl; try done.
  intros [= <- <-].
  destruct (findBothValues_sound _ _ _ _ _ _ _ _ Hloop) as [H1' H2'].
  destruct (H1' eq_refl) as [? | Hw1]; [done |].
  destruct (H2' eq_refl) as [? | Hw2]; [done |].
  split; [by exists op1, v1, op2, v2 |].
  intros ->. by destruct Hw1 as (? & ? & [] & _).
Qed.

End ProposalFacts.

(** ** Don't-cares, refinement proposals and preambles *)

Section StatementFacts.
Context {value ty : Type} `{ValueOps value} `{FilterOps value}
        `{SchemaRegistry value ty}.

Local Abbreviation bexpr := (BooleanExpression value).

Lemma schemaOf_plug (hs : list (Holder value)) (node node' : Table value) :
  schemaOf node = schemaOf node' → schemaOf (plug hs node) = schemaOf (plug hs node').
Proof. destruct hs as [| h hs']; [done |]. intros _. by destruct h. Qed.

(** X21.  A statement that addDontCare returns is the statement given
    with, at the filter attachment of its table, the predicate found
    there conjoined with the don't-care and simplified, the rest of the
    tree being unchanged; this happens only for an output argument not
    marked unfilterable that the predicate found does not use.  And the
    don't-care is added once: when the simplified conjunction still uses
    the field, adding the don't-care to the returned statement again is
    rejected. *)
Theorem addDontCare_spec (stmt stmt' : Statement value) (pname : string) :
  addDontCare stmt pname = Ret (Some stmt') →
  ∃ table hs inner ctxFilter s filterable,
    stmt_table stmt = Some table
    ∧ getArgument (schemaOf table) pname = Some (false, filterable)
    ∧ filterable ≠ Some false
    ∧ findOrMakeFilterTable table
      = Ret (Some (plug hs (TFilter inner ctxFilter s)),
             Some {| holders := hs; filterTable := TFilter inner ctxFilter s |})
    ∧ filterUsesParam ctxFilter pname = false
    ∧ stmt_table stmt'
      = Some (plug hs (TFilter inner
                         (optimize (BAnd [ctxFilter; BDontCare pname])) s))
    ∧ (filterUsesParam (optimize (BAnd [ctxFilter; BDontCare pname])) pname
       = true →
       addDontCare stmt' pname = Ret None).
Proof.
  unfold addDontCare at 1.
  destruct (stmt_table stmt) as [table |]; [| done].
  destruct (getArgument (schemaOf table) pname) as [[[|] filterable] |] eqn:Harg;
    try done.
  destruct (bool_decide (filterable = Some false)) eqn:Efilt; [done |].
  apply bool_decide_eq_false in Efilt.
  destruct (findOrMakeFilterTable table) as [[root' [ft |]] | e] eqn:Efind;
    simpl; try done.
  destruct root' as [root' |]; cycle 1.
  { unfold findOrMakeFilterTable in Efind.
    destruct (findFilterTableFrom table []) as [[?|]|]; simpl in Efind; done. }
  destruct (findOrMakeFilterTable_Some_inv _ _ _ Efind)
    as (-> & inner & f & s & Hft & Hshape).
  destruct ft as [hs node]. simpl in *. subst node.
  destruct (filterUsesParam f pname) eqn:Euse; [done |].
  intros [= <-]. exists table, hs, inner, f, s, filterable.
  repeat split; try done.
  intros Huses. unfold addDontCare. simpl.
  assert (schemaOf (plug hs (TFilter inner
                               (optimize (BAnd [f; BDontCare pname])) s))
          = schemaOf table) as ->.
  { destruct Hshape as [-> | (-> & Hinv & -> & ->)]; by apply schemaOf_plug. }
  rewrite Harg, bool_decide_eq_false_2 by done.
  rewrite findOrMakeFilterTable_plug. simpl. rewrite rev_involutive. simpl.
  by rewrite Huses.
Qed.

(** X22.  For a proposal that is a filter over an invocation,
    makeRefinementProposal returns null, and does not fail, when the
    attachment search of the current table reaches an Aggregation, a
    VarRef or a ResultRef; on a current table with a filter it returns
    the proposal, unchanged, exactly when no field appears in both
    predicates, and null otherwise; and on a current table without a
    filter it returns the proposal. *)
Theorem makeRefinementProposal_spec (hs : list (Holder value))
    (pinv : Invocation value) (ps ps' : FunctionDef) (proposalFilter : bexpr) :
  let proposal := TFilter (TInvocation pinv ps) proposalFilter ps' in
  (∀ t s, makeRefinementProposal (plug hs (TAggregation t s)) proposal = Ret None)
  ∧ (∀ n s, makeRefinementProposal (plug hs (TVarRef n s)) proposal = Ret None)
  ∧ (∀ k s, makeRefinementProposal (plug hs (TResultRef k s)) proposal = Ret None)
  ∧ (∀ t ctxFilter s,
       makeRefinementProposal (plug hs (TFilter t ctxFilter s)) proposal
       = if bool_decide (getParamsInFilter ctxFilter
                         ## getParamsInFilter proposalFilter)
         then Ret (Some proposal) else Ret None)
  ∧ (∀ inv s,
       makeRefinementProposal (plug hs (TInvocation inv s)) proposal
       = Ret (Some proposal)).
Proof.
  intros proposal. unfold makeRefinementProposal, proposal.
  repeat split; intros; rewrite findOrMakeFilterTable_plug; simpl;
    try reflexivity.
  - unfold refineFilterToAnswerQuestion.
    destruct (setsIntersect _ _) eqn:E.
    + rewrite bool_decide_eq_false_2; [done |].
      apply setsIntersect_true in E. set_solver.
    + apply setsIntersect_false in E. by rewrite bool_decide_eq_true_2.
Qed.

Section MergeFacts.
Variable isSameFunction : FunctionDef → FunctionDef → bool.

(** X23.  A merge of a preamble and a request that
    mergePreambleAndRequest returns has the length of the pair and its
    elements but the last, which is the request with its predicate
    replaced by the conjunction of the negated preamble and the request;
    a result row is compatible with that predicate exactly when it is
    not compatible with the preamble and is compatible with the request;
    and the changeFilter strategy accepts the request on the preamble.
    On an empty pair the function fails with a TypeError. *)
Theorem mergePreambleAndRequest_spec (pair merged : list (Table value))
    (request : Table value) :
  (mergePreambleAndRequest isSameFunction [] request = Throw TypeError)
  ∧ (mergePreambleAndRequest isSameFunction pair request = Ret (Some merged) →
     ∃ init pt preambleFilter psch requestTable requestFilter requestSchema,
       pair = (init ++ [TFilter pt preambleFilter psch])%list
       ∧ request = TFilter requestTable requestFilter requestSchema
       ∧ merged
         = (init ++ [TFilter requestTable
                       (BAnd [BNot preambleFilter; requestFilter])
                       requestSchema])%list
       ∧ length merged = length pair
       ∧ is_Some (refineFilterToChangeFilter preambleFilter requestFilter)
       ∧ ∀ row : gmap string value,
           isFilterCompatibleWithResult row
             (BAnd [BNot preambleFilter; requestFilter])
           = negb (isFilterCompatibleWithResult row preambleFilter)
             && isFilterCompatibleWithResult row requestFilter).
Proof.
  split; [reflexivity |].
  unfold mergePreambleAndRequest.
  destruct (last pair) as [preamble |] eqn:Hlast; [| done].
  destruct (negb _); [done |].
  destruct preamble as [| pt pf psch | | | | | | | | | | | | | |]; try done.
  destruct request as [| rt rf rsch | | | | | | | | | | | | | |]; try done.
  destruct (refineFilterToChangeFilter pf rf) as [refined |] eqn:Href; [| done].
  intros [= <-].
  apply last_Some in Hlast as [init ->].
  exists init, pt, pf, psch, rt, rf, rsch.
  rewrite length_app, Nat.add_sub, take_app_length.
  repeat split; try done.
  - by rewrite !length_app.
  - intros row. simpl. by rewrite andb_true_r.
Qed.

End MergeFacts.

End StatementFacts.

(** ** Placeholders of a slot bag *)

Section ReplacePlaceholderFacts.
Context {value : Type} `{ValueOps value}.

Lemma bag_get_set_eq (bag : SlotBag value) (key : string) (v : value) :
  bag_get (bag_set bag key v) key = Some v.
Proof.
  unfold bag_get, bag_set. simpl.
  induction (bag_store bag) as [| [k w] rest IH]; simpl.
  - by rewrite String.eqb_refl.
  - destruct (k =? key) eqn:E; simpl; rewrite E; [reflexivity | exact IH].
Qed.

Lemma bag_get_set_ne (bag : SlotBag value) (key key' : string) (v : value) :
  key ≠ key' → bag_get (bag_set bag key v) key' = bag_get bag key'.
Proof.
  intros Hne. unfold bag_get, bag_set. simpl.
  induction (bag_store bag) as [| [k w] rest IH]; simpl.
  - by rewrite (proj2 (String.eqb_neq _ _) Hne).
  - destruct (k =? key) eqn:E; simpl.
    + apply String.eqb_eq in E. subst k.
      by rewrite (proj2 (String.eqb_neq _ _) Hne).
    + destruct (k =? key'); [reflexivity | exact IH].
Qed.

Lemma bag_set_keys (bag : SlotBag value) (key key' : string) (v : value) :
  In key' (bag_keys (bag_set bag key v)) ↔ key' = key ∨ In key' (bag_keys bag).
Proof.
  unfold bag_keys, bag_set. simpl.
  induction (bag_store bag) as [| [k w] rest IH]; simpl; [naive_solver |].
  destruct (k =? key) eqn:E; simpl.
  - apply String.eqb_eq in E. subst k. naive_solver.
  - rewrite IH. naive_solver.
Qed.

Lemma bag_set_NoDup (bag : SlotBag value) (key : string) (v : value) :
  List.NoDup (bag_keys bag) → List.NoDup (bag_keys (bag_set bag key v)).
Proof.
  pose proof (bag_set_keys bag key) as Hkeys. revert Hkeys.
  unfold bag_keys, bag_set. simpl.
  induction (bag_store bag) as [| [k w] rest IH]; simpl; intros Hkeys Hnd.
  - constructor; [by intros [] | constructor].
  - inversion Hnd as [| ? ? Hnotin Hrest]; subst.
    destruct (k =? key) eqn:E; simpl; [by constructor |].
    assert (∀ key' v', In key' (map fst (store_set key v' rest))
                       ↔ key' = key ∨ In key' (map fst rest)) as Hrestkeys.
    { clear. intros key' v'.
      induction rest as [| [k w] rest IH]; simpl; [naive_solver |].
      destruct (k =? key) eqn:E; simpl.
      - apply String.eqb_eq in E. subst k. naive_solver.
      - rewrite IH. naive_solver. }
    constructor; [| by apply IH].
    rewrite Hrestkeys. intros [-> | Hin]; [| done].
    by rewrite String.eqb_refl in E.
Qed.

Section WithIsConstant.
Variable isConstant : value → bool.

Lemma replaceSlots_inv (names : list (option string)) :
  ∀ (args : list value) (clone out : SlotBag value),
    replaceSlots isConstant clone names args = Ret out →
    bag_schema out = bag_schema clone
    ∧ (List.NoDup (bag_keys clone) → List.NoDup (bag_keys out))
    ∧ (∀ key, In key (bag_keys out)
              ↔ In key (bag_keys clone)
                ∨ ∃ v, In (Some key, v) (combine names args))
    ∧ (∀ key, bag_get out key
              = match List.find (fun entry => bool_decide (fst entry = Some key))
                                (rev (combine names args)) with
                | Some entry => Some (snd entry)
                | None => bag_get clone key
                end)
    ∧ (∀ key v, In (Some key, v) (combine names args) → isConstant v = true).
Proof.
  induction names as [| name names' IH]; intros args clone out; simpl.
  { intros [= <-]. repeat split; try done; naive_solver. }
  destruct args as [| v args']; simpl.
  { intros [= <-]. repeat split; try done; naive_solver. }
  destruct name as [key0 |].
  - destruct (isConstant v) eqn:Econst; simpl; [| done].
    intros Hrest.
    destruct (IH _ _ _ Hrest) as (Hsch & Hnd & Hkeys & Hget & Hconst).
    split; [done |]. split; [intros ?; by apply Hnd, bag_set_NoDup |].
    split; [| split].
    + intros key. rewrite Hkeys, bag_set_keys. naive_solver.
    + intros key. rewrite Hget, find_snoc.
      destruct (List.find _ (rev (combine names' args'))); [reflexivity |].
      simpl. destruct (decide (key0 = key)) as [-> | Hne].
      * rewrite bool_decide_eq_true_2 by done. apply bag_get_set_eq.
      * rewrite bool_decide_eq_false_2 by congruence. by apply bag_get_set_ne.
    + intros key w [[= <- <-] | Hin]; [done | by eapply Hconst].
  - intros Hrest.
    destruct (IH _ _ _ Hrest) as (Hsch & Hnd & Hkeys & Hget & Hconst).
    split; [done |]. split; [done |]. split; [| split].
    + intros key. rewrite Hkeys. naive_solver.
    + intros key. rewrite Hget, find_snoc.
      by destruct (List.find _ (rev (combine names' args'))).
    + intros key w [[=] | Hin]. by eapply Hconst.
Qed.

(** X24.  In the bag that replaceSlotBagPlaceholders returns, the value
    of a field is the argument at the last position that names the
    field, and the value in the given bag when no position names it; the
    schema is that of the given bag, and the arguments written are
    constants. *)
Theorem replaceSlotBagPlaceholders_lookup (bag out : SlotBag value)
    (names : list (option string)) (args : list value) :
  replaceSlotBagPlaceholders isConstant bag names args = Ret (Some out) →
  length names = length args
  ∧ bag_schema out = bag_schema bag
  ∧ (∀ key, bag_get out key
            = match List.find (fun entry => bool_decide (fst entry = Some key))
                              (rev (combine names args)) with
              | Some entry => Some (snd entry)
              | None => bag_get bag key
              end)
  ∧ (∀ key v, In (Some key, v) (combine names args) → isConstant v = true).
Proof.
  unfold replaceSlotBagPlaceholders.
  destruct (length names =? length args)%nat eqn:Elen; simpl; [| done].
  apply Nat.eqb_eq in Elen.
  destruct (replaceSlots isConstant bag names args) as [out' |] eqn:Hloop;
    simpl; [| done].
  intros [= <-].
  destruct (replaceSlots_inv _ _ _ _ Hloop) as (Hsch & _ & _ & Hget & Hconst).
  done.
Qed.

(** X25.  replaceSlotBagPlaceholders fails on its assertion when the
    names and the arguments differ in length, and never returns null;
    the bag it returns holds the fields of the given bag and the fields
    named, and holds each field once when the given bag does. *)
Theorem replaceSlotBagPlaceholders_keys (bag : SlotBag value)
    (names : list (option string)) (args : list value) :
  (length names ≠ length args →
     replaceSlotBagPlaceholders isConstant bag names args = Throw AssertionError)
  ∧ replaceSlotBagPlaceholders isConstant bag names args ≠ Ret None
  ∧ (∀ out, replaceSlotBagPlaceholders isConstant bag names args = Ret (Some out) →
       (List.NoDup (bag_keys bag) → List.NoDup (bag_keys out))
       ∧ ∀ key, In key (bag_keys out)
                ↔ In key (bag_keys bag) ∨ ∃ v, In (Some key, v) (combine names args)).
Proof.
  unfold replaceSlotBagPlaceholders.
  destruct (length names =? length args)%nat eqn:Elen; simpl.
  - apply Nat.eqb_eq in Elen. split; [done |].
    destruct (replaceSlots isConstant bag names args) as [out' |] eqn:Hloop;
      simpl; [| done].
    split; [done |]. intros out [= <-].
    destruct (replaceSlots_inv _ _ _ _ Hloop) as (_ & Hnd & Hkeys & _).
    done.
  - done.
Qed.

End WithIsConstant.

End ReplacePlaceholderFacts.

(** ** The further properties on restaurants *)

(** The hypothesis of X14 holds for the bag that states the cuisine and
    the price range and the bag that states the cuisine only. *)
Lemma isInfoPhraseCompatibleWithResult_weakening_witness :
  let schema := {| class_name := "com.yelp"; name := "restaurant" |} in
  let info := {| bag_schema := schema;
                 bag_store := [("cuisine", VString "italian");
                               ("price_range", VString "cheap")] |} in
  let info' := {| bag_schema := schema;
                  bag_store := [("cuisine", VString "italian")] |} in
  let result : ResultItem Value :=
    {| item_value := {[ "cuisine" := VString "italian";
                        "price_range" := VString "cheap" ]} |} in
  (∀ entry, In entry (bag_store info') → In entry (bag_store info))
  ∧ isInfoPhraseCompatibleWithResult result info = true
  ∧ isInfoPhraseCompatibleWithResult result info' = true.
Proof.
  intros schema info info' result.
  assert (∀ entry, In entry (bag_store info') → In entry (bag_store info)) as Hsub
    by (intros entry [<- | []]; by left).
  assert (isInfoPhraseCompatibleWithResult result info = true) as Hc
    by (vm_compute; reflexivity).
  split; [exact Hsub |]. split; [exact Hc |].
  exact (proj1 (isInfoPhraseCompatibleWithResult_weakening info info' Hsub) result Hc).
Defined.

(** The hypothesis of X15 holds for a context of [restaurant()] without
    results and without projection, on which the check fails. *)
Lemma checkInfoPhrase_without_results_witness :
  let schema := {| class_name := "com.yelp"; name := "restaurant" |} in
  let ctx : ContextInfo Value unit :=
    {| currentFunction := Some "com.yelp:restaurant";
       results := [];
       resultInfo_projection := None;
       nextInfo := None;
       next := None |} in
  let info := {| bag_schema := schema;
                 bag_store := [("cuisine", VString "italian")] |} in
  results ctx = [] ∧ checkInfoPhrase ctx info = Throw AssertionError.
Proof.
  intros schema ctx info. split; [reflexivity |].
  destruct (checkInfoPhrase_without_results ctx info eq_refl) as (_ & Hthrow & _).
  apply Hthrow. split; reflexivity.
Defined.

(** The hypotheses of X16 hold for a context of [restaurant()] with one
    result and no projection, and the bag that states its cuisine is
    accepted. *)
Lemma checkInfoPhrase_default_witness :
  let schema := {| class_name := "com.yelp"; name := "restaurant" |} in
  let top : ResultItem Value :=
    {| item_value := {[ "cuisine" := VString "italian";
                        "price_range" := VString "cheap" ]} |} in
  let ctx : ContextInfo Value unit :=
    {| currentFunction := Some "com.yelp:restaurant";
       results := [top];
       resultInfo_projection := None;
       nextInfo := None;
       next := None |} in
  let info := {| bag_schema := schema;
                 bag_store := [("cuisine", VString "italian")] |} in
  resultInfo_projection ctx = None ∧ results ctx = [top]
  ∧ checkInfoPhrase ctx info = Ret (Some info).
Proof.
  intros schema top ctx info. split; [reflexivity |]. split; [reflexivity |].
  destruct (checkInfoPhrase_default ctx info top [] eq_refl eq_refl eq_refl)
    as (Haccept & _).
  apply Haccept. split.
  - intros pname [<- | []]. vm_compute. by eexists.
  - vm_compute. reflexivity.
Defined.

(** The hypothesis of X19 holds for the recommendation of the restaurant
    R1, the top result of the context. *)
Lemma checkRecommendation_after_make_witness :
  let schema := {| class_name := "com.yelp"; name := "restaurant" |} in
  let getAction : option unit → res (Invocation Value) :=
    fun _ => Throw TypeError in
  let top : ResultItem Value :=
    {| item_value := {[ "id" := VEntity "R1" "restaurant";
                        "cuisine" := VString "italian" ]} |} in
  let ctx : ContextInfo Value unit :=
    {| currentFunction := Some "com.yelp:restaurant";
       results := [top];
       resultInfo_projection := None;
       nextInfo := None;
       next := None |} in
  let info := {| bag_schema := schema;
                 bag_store := [("cuisine", VString "italian")] |} in
  let rec := {| topResult := top; rec_ctx := Some ctx; info := None;
                action := None |} in
  makeRecommendation getAction ctx (VEntity "R1" "restaurant") = Ret (Some rec)
  ∧ ∃ outcome, checkRecommendation rec info = Ret outcome.
Proof.
  intros schema getAction top ctx info rec.
  assert (makeRecommendation getAction ctx (VEntity "R1" "restaurant")
          = Ret (Some rec)) as Hmade by (vm_compute; reflexivity).
  split; [exact Hmade |].
  apply (checkRecommendation_after_make getAction ctx rec info).
  left. by eexists.
Defined.

(** The hypothesis of X20 holds for the question "italian or chinese?"
    on results of both cuisines. *)
Lemma checkFilterPairForDisjunctiveQuestion_sound_witness :
  let italian := BAtom "cuisine" "==" (VString "italian") in
  let chinese := BAtom "cuisine" "==" (VString "chinese") in
  let results : list (ResultItem Value) :=
    [ {| item_value := {[ "cuisine" := VString "italian" ]} |};
      {| item_value := {[ "cuisine" := VString "chinese" ]} |} ] in
  checkFilterPairForDisjunctiveQuestion results italian chinese
  = Ret (Some ("cuisine", "String"))
  ∧ results ≠ [].
Proof.
  intros italian chinese results.
  assert (checkFilterPairForDisjunctiveQuestion results italian chinese
          = Ret (Some ("cuisine", "String"))) as Hok by (vm_compute; reflexivity).
  split; [exact Hok |].
  exact (proj2 (checkFilterPairForDisjunctiveQuestion_sound _ _ _ _ _ Hok)).
Defined.

(** The hypotheses of X21 hold for the don't-care on [price_range] added
    to the statement of [restaurant()]: it is added once, and rejected
    the second time. *)
Lemma addDontCare_spec_witness :
  let schema := {| class_name := "com.yelp"; name := "restaurant" |} in
  let inv : Invocation Value :=
    {| channel := "restaurant"; in_params := []; inv_schema := schema |} in
  let stmt := {| stmt_table := Some (TInvocation inv schema) |} in
  let stmt' := {| stmt_table :=
                    Some (TFilter (TInvocation inv schema)
                            (BDontCare "price_range") schema) |} in
  addDontCare stmt "price_range" = Ret (Some stmt')
  ∧ addDontCare stmt' "price_range" = Ret None.
Proof.
  intros schema inv stmt stmt'.
  assert (addDontCare stmt "price_range" = Ret (Some stmt')) as Hadd
    by (vm_compute; reflexivity).
  split; [exact Hadd |].
  destruct (addDontCare_spec _ _ _ Hadd)
    as (table & hs & inner & f & s & filterable & Ht & _ & _ & Hfind & _ & _
        & Htwice).
  apply Htwice. injection Ht as <-.
  change (findOrMakeFilterTable (TInvocation inv schema))
    with (Ret (Some (TFilter (TInvocation inv schema) (@BTrue Value) schema),
               Some {| holders := [];
                       filterTable :=
                         TFilter (TInvocation inv schema) BTrue schema |}))
    in Hfind.
  injection Hfind as _ _ _ <- _. reflexivity.
Defined.

(** The hypothesis of X23 holds for the preamble "not italian" merged
    with the request for chinese food. *)
Lemma mergePreambleAndRequest_spec_witness :
  let schema := {| class_name := "com.yelp"; name := "restaurant" |} in
  let inv : Invocation Value :=
    {| channel := "restaurant"; in_params := []; inv_schema := schema |} in
  let italian := BAtom "cuisine" "==" (VString "italian") in
  let chinese := BAtom "cuisine" "==" (VString "chinese") in
  let same := fun a b : FunctionDef => name a =? name b in
  let preamble := TFilter (TInvocation inv schema) italian schema in
  let request := TFilter (TInvocation inv schema) chinese schema in
  let merged := [TFilter (TInvocation inv schema)
                   (BAnd [BNot italian; chinese]) schema] in
  mergePreambleAndRequest same [preamble] request = Ret (Some merged)
  ∧ length merged = length [preamble].
Proof.
  intros schema inv italian chinese same preamble request merged.
  assert (mergePreambleAndRequest same [preamble] request = Ret (Some merged))
    as Hmerge by reflexivity.
  split; [exact Hmerge |].
  destruct (proj2 (mergePreambleAndRequest_spec same [preamble] merged request)
              Hmerge)
    as (init & pt & pf & psch & rt & rf & rsch & _ & _ & _ & Hlen & _).
  exact Hlen.
Defined.

(** The hypothesis of X24 holds for the bag that states the cuisine, in
    which the placeholder of the price range is replaced. *)
Lemma replaceSlotBagPlaceholders_lookup_witness :
  let schema := {| class_name := "com.yelp"; name := "restaurant" |} in
  let bag := {| bag_schema := schema;
                bag_store := [("cuisine", VString "italian")] |} in
  let out := {| bag_schema := schema;
                bag_store := [("cuisine", VString "italian");
                              ("price_range", VString "cheap")] |} in
  let names := [Some "price_range"; None] in
  let args := [VString "cheap"; VNumber 5] in
  replaceSlotBagPlaceholders (fun _ => true) bag names args = Ret (Some out)
  ∧ bag_get out "price_range" = Some (VString "cheap")
  ∧ bag_get out "cuisine" = bag_get bag "cuisine".
Proof.
  intros schema bag out names args.
  assert (replaceSlotBagPlaceholders (fun _ => true) bag names args
          = Ret (Some out)) as Hrep by reflexivity.
  split; [exact Hrep |].
  destruct (replaceSlotBagPlaceholders_lookup _ _ _ _ _ Hrep)
    as (_ & _ & Hget & _).
  split; [exact (Hget "price_range") | exact (Hget "cuisine")].
Defined.
